(** * RFID reader service: ingestion core

    A shallow embedding of the reader service's value types
    ([models/read.py], [models/reader.py]), its deduplicator
    ([utils/deduplication.py]), its quality filter ([utils/filtering.py])
    and its processing pipeline ([services/read_processor.py]), followed
    by the properties of the specification checked against them.

    Conventions of the embedding:
    - Python [float] values (dBm, seconds, scores) are exact rationals [Q];
      rounding and NaN are not modelled.
    - Python [str] values are [string]s whose characters are the code
      points below 256.
    - Wall-clock readings ([datetime.now]) and fresh UUIDs are explicit
      parameters.
    - A Python [dict] is a [gmap]; exceptions are values of [exn] carried
      by [result]. *)

From Stdlib Require Import QArith Qabs Lqa Ascii String.
From stdpp Require Import gmap strings list fin_maps.

(** ** Python basics *)

Module Py.

(** The exceptions the modelled code raises, with the raise site. *)
Inductive exn : Type :=
| ValueError (msg : string)
| KeyError (key : string).

Inductive result (A : Type) : Type :=
| Ok (a : A)
| Raise (e : exn).
Arguments Ok {A} a.
Arguments Raise {A} e.

Definition is_ok {A} (r : result A) : bool :=
  match r with Ok _ => true | Raise _ => false end.

Definition is_value_error {A} (r : result A) : bool :=
  match r with Raise (ValueError _) => true | _ => false end.

(** Comparisons on floats. *)
Definition Qleb (x y : Q) : bool := Qle_bool x y.
Definition Qltb (x y : Q) : bool := negb (Qle_bool y x).

(** [str.isspace] on one character (code points below 256). *)
Definition isspace (c : ascii) : bool :=
  let n := nat_of_ascii c in
  ((9 <=? n) && (n <=? 13)) || ((28 <=? n) && (n <=? 32))
  || (n =? 133) || (n =? 160).

Fixpoint lstrip (s : string) : string :=
  match s with
  | EmptyString => EmptyString
  | String c s' => if isspace c then lstrip s' else s
  end.

(** [rstrip] returns the empty string when nothing but white space follows. *)
Fixpoint rstrip (s : string) : string :=
  match s with
  | EmptyString => EmptyString
  | String c s' =>
      match rstrip s' with
      | EmptyString => if isspace c then EmptyString else String c EmptyString
      | r => String c r
      end
  end.

(** [str.strip()] *)
Definition strip (s : string) : string := rstrip (lstrip s).

(** Truthiness of a string. *)
Definition str_bool (s : string) : bool :=
  match s with EmptyString => false | String _ _ => true end.

(** The character class [[A-Fa-f0-9]]. *)
Definition is_hex (c : ascii) : bool :=
  let n := nat_of_ascii c in
  ((48 <=? n) && (n <=? 57)) || ((65 <=? n) && (n <=? 70))
  || ((97 <=? n) && (n <=? 102)).

(** Consume exactly [n] characters of the class; the rest of the input. *)
Fixpoint match_hex (n : nat) (s : string) : option string :=
  match n with
  | O => Some s
  | S n' =>
      match s with
      | String c s' => if is_hex c then match_hex n' s' else None
      | EmptyString => None
      end
  end.

(** The anchor [$] without [re.MULTILINE]: the end of the input, or just
    before a line feed that ends the input. *)
Definition at_dollar (rest : string) : bool :=
  match rest with
  | EmptyString => true
  | String c EmptyString => (nat_of_ascii c =? 10)
  | _ => false
  end.

End Py.

(** ** [models/read.py] *)

Module ReadModel.
Import Py.

Definition MIN_SIGNAL_STRENGTH : Q := (-70)%Q.
Definition MAX_SIGNAL_STRENGTH : Q := (-20)%Q.

(** [re.compile(r'^[A-Fa-f0-9]{24}$').match] *)
Definition _TAG_PATTERN_match (s : string) : bool :=
  match match_hex 24 s with
  | Some rest => at_dollar rest
  | None => false
  end.

(** A [tzinfo] object: an instance of [datetime.timezone], which compares
    by its offset alone, or of some other subclass, which compares by
    identity and so never equals [timezone.utc]. *)
Inductive tzinfo : Type :=
| Timezone (utcoffset : Q) (name : string)
| OtherTz (utcoffset : Q) (key : string).

Definition utcoffset (t : tzinfo) : Q :=
  match t with Timezone o _ => o | OtherTz o _ => o end.

Definition timezone_utc : tzinfo := Timezone 0 "UTC".

(** A [datetime]: the clock fields read as seconds since the epoch, and
    the attached [tzinfo], [None] for a naive value. *)
Record datetime : Type := {
  wall : Q;
  dt_tzinfo : option tzinfo
}.

(** [dt.tzinfo != timezone.utc] *)
Definition tzinfo_ne_utc (t : option tzinfo) : bool :=
  match t with
  | Some (Timezone o _) => negb (Qeq_bool o 0)
  | Some (OtherTz _ _) => true
  | None => true
  end.

(** [dt.replace(tzinfo=tz)]: the clock fields are kept. *)
Definition replace_tzinfo (dt : datetime) (tz : tzinfo) : datetime :=
  {| wall := wall dt; dt_tzinfo := Some tz |}.

(** [dt.timestamp()]; a naive value is read in the local zone. *)
Definition timestamp (local_utcoffset : Q) (dt : datetime) : Q :=
  match dt_tzinfo dt with
  | Some t => (wall dt - utcoffset t)%Q
  | None => (wall dt - local_utcoffset)%Q
  end.

(** The frozen dataclass; [uuid] is its [id] field. *)
Record Read : Type := {
  uuid : N;
  rfid_tag : string;
  reader_id : string;
  signal_strength : Q;
  read_time : datetime;
  is_processed : bool
}.

(** The second component of [validate_signal_strength]'s result. *)
Inductive signal_msg : Type :=
| SignalOk
| BelowMinimum
| ExceedsMaximum.

Definition validate_signal_strength (strength : Q) : bool * signal_msg :=
  if Qltb strength MIN_SIGNAL_STRENGTH then (false, BelowMinimum)
  else if Qltb MAX_SIGNAL_STRENGTH strength then (false, ExceedsMaximum)
  else (true, SignalOk).

Definition signal_msg_text (m : signal_msg) : string :=
  match m with
  | SignalOk => ""
  | BelowMinimum => "Signal strength is below minimum"
  | ExceedsMaximum => "Signal strength exceeds maximum"
  end.

(** The dataclass constructor followed by [__post_init__]. *)
Definition __post_init__ (self : Read) : result Read :=
  if negb (_TAG_PATTERN_match (rfid_tag self)) then
    Raise (ValueError "Invalid RFID tag format")
  else
    let '(valid, error_msg) := validate_signal_strength (signal_strength self) in
    if negb valid then Raise (ValueError (signal_msg_text error_msg))
    else if negb (str_bool (strip (reader_id self))) then
      Raise (ValueError "Reader ID cannot be empty")
    else if tzinfo_ne_utc (dt_tzinfo (read_time self)) then
      Ok {| uuid := uuid self; rfid_tag := rfid_tag self;
            reader_id := reader_id self;
            signal_strength := signal_strength self;
            read_time := replace_tzinfo (read_time self) timezone_utc;
            is_processed := is_processed self |}
    else Ok self.

(** [Read(id=.., rfid_tag=.., reader_id=.., signal_strength=..,
    read_time=..)] with [is_processed] at its default. *)
Definition new_Read (id_ : N) (tag rid : string) (s : Q) (t : datetime)
  : result Read :=
  __post_init__ {| uuid := id_; rfid_tag := tag; reader_id := rid;
                   signal_strength := s; read_time := t;
                   is_processed := false |}.

End ReadModel.

(** ** [utils/deduplication.py] *)

Module Dedup.
Import Py ReadModel.

Definition DEFAULT_TIME_WINDOW : Q := 5%Q.
Definition DEFAULT_SIGNAL_THRESHOLD : Q := 3%Q.
Definition DEFAULT_MAX_BUFFER_SIZE : Z := 10000%Z.

(** The lock is left out: every method below runs with it held, start to
    end.  The two Prometheus collectors are kept as their current values. *)
Record ReadDeduplicator : Type := {
  time_window_seconds : Q;
  signal_threshold_dbm : Q;
  _read_buffer : gmap string (list Read);
  _max_buffer_size : Z;
  _dedup_counter : nat;
  _buffer_size_gauge : nat
}.

Definition __init__ (time_window signal_threshold : Q) (max_buffer_size : Z)
  : result ReadDeduplicator :=
  if Qleb time_window 0 then
    Raise (ValueError "Time window must be positive")
  else if Qltb signal_threshold 0 then
    Raise (ValueError "Signal threshold must be non-negative")
  else if (max_buffer_size <=? 0)%Z then
    Raise (ValueError "Buffer size must be positive")
  else
    Ok {| time_window_seconds := time_window;
          signal_threshold_dbm := signal_threshold;
          _read_buffer := ∅;
          _max_buffer_size := max_buffer_size;
          _dedup_counter := 0;
          _buffer_size_gauge := 0 |}.

Definition with_buffer (self : ReadDeduplicator)
  (buf : gmap string (list Read)) : ReadDeduplicator :=
  {| time_window_seconds := time_window_seconds self;
     signal_threshold_dbm := signal_threshold_dbm self;
     _read_buffer := buf;
     _max_buffer_size := _max_buffer_size self;
     _dedup_counter := _dedup_counter self;
     _buffer_size_gauge := _buffer_size_gauge self |}.

Definition inc_dedup_counter (self : ReadDeduplicator) : ReadDeduplicator :=
  {| time_window_seconds := time_window_seconds self;
     signal_threshold_dbm := signal_threshold_dbm self;
     _read_buffer := _read_buffer self;
     _max_buffer_size := _max_buffer_size self;
     _dedup_counter := S (_dedup_counter self);
     _buffer_size_gauge := _buffer_size_gauge self |}.

Definition set_buffer_size_gauge (self : ReadDeduplicator) (n : nat)
  : ReadDeduplicator :=
  {| time_window_seconds := time_window_seconds self;
     signal_threshold_dbm := signal_threshold_dbm self;
     _read_buffer := _read_buffer self;
     _max_buffer_size := _max_buffer_size self;
     _dedup_counter := _dedup_counter self;
     _buffer_size_gauge := n |}.

(** [sum(len(reads) for reads in self._read_buffer.values())] *)
Definition buffer_total (buf : gmap string (list Read)) : nat :=
  map_fold (λ _ reads acc, length reads + acc) 0 buf.

Section WithLocalZone.

(** The offset of the host's local zone, which [timestamp()] applies to a
    naive [read_time]. *)
Variable local_utcoffset : Q.

Definition read_timestamp (read : Read) : Q :=
  timestamp local_utcoffset (read_time read).

Definition _is_duplicate (self : ReadDeduplicator)
  (read existing_read : Read) : bool :=
  if negb (fst (validate_signal_strength (signal_strength read))) then false
  else if negb (fst (validate_signal_strength (signal_strength existing_read)))
  then false
  else
    let time_diff := Qabs (read_timestamp read - read_timestamp existing_read) in
    if Qltb (time_window_seconds self) time_diff then false
    else
      let signal_diff :=
        Qabs (signal_strength read - signal_strength existing_read) in
      Qltb signal_diff (signal_threshold_dbm self).

(** One bucket of [_clean_buffer]: the unexpired reads, and the bucket is
    deleted when none is left. *)
Definition clean_bucket (cutoff_time : Q) (reads : list Read)
  : option (list Read) :=
  match List.filter (λ read, Qltb cutoff_time (read_timestamp read)) reads with
  | [] => None
  | kept => Some kept
  end.

(** [now] is [datetime.now(timezone.utc).timestamp()]. *)
Definition _clean_buffer (now : Q) (self : ReadDeduplicator)
  : ReadDeduplicator :=
  let cutoff_time := (now - time_window_seconds self)%Q in
  with_buffer self (omap (clean_bucket cutoff_time) (_read_buffer self)).

(** The [for read in reads] loop of [process_reads]; the result is the
    deduplicator after the loop and the reads appended to
    [deduplicated_reads]. *)
Fixpoint process_loop (self : ReadDeduplicator) (reads : list Read)
  : ReadDeduplicator * list Read :=
  match reads with
  | [] => (self, [])
  | read :: rest =>
      let total_reads := buffer_total (_read_buffer self) in
      if (_max_buffer_size self <=? Z.of_nat total_reads)%Z then
        (self, [])                                          (* break *)
      else
        let tag_reads := default [] (_read_buffer self !! rfid_tag read) in
        if existsb (_is_duplicate self read) tag_reads then
          process_loop (inc_dedup_counter self) rest
        else
          let buf := <[rfid_tag read := tag_reads ++ [read]]> (_read_buffer self) in
          let '(self', out) := process_loop (with_buffer self buf) rest in
          (self', read :: out)
  end.

Definition process_reads (now : Q) (self : ReadDeduplicator)
  (reads : list Read) : ReadDeduplicator * list Read :=
  match reads with
  | [] => (self, [])
  | _ =>
      let '(self', deduplicated_reads) :=
        process_loop (_clean_buffer now self) reads in
      (set_buffer_size_gauge self' (buffer_total (_read_buffer self')),
       deduplicated_reads)
  end.

End WithLocalZone.

End Dedup.

(** ** [utils/filtering.py] *)

Module Filter.
Import Py ReadModel.

Definition DEFAULT_CONFIDENCE_THRESHOLD : Q := 0.8%Q.
Definition DEFAULT_BATCH_SIZE : Z := 100%Z.

(** [validation_cache] maps a read's [id] to its score; [None] when
    caching is disabled.  Expiry and eviction of the [TTLCache] are not
    modelled: no entry is lost while the filter runs. *)
Record ReadFilter : Type := {
  quality_threshold : Q;
  confidence_threshold : Q;
  batch_size : Z;
  validation_cache : option (gmap N Q)
}.

Definition __init__ (quality confidence : Q) (size : Z)
  (enable_caching : bool) : result ReadFilter :=
  if negb (Qleb 0 quality && Qleb quality 1) then
    Raise (ValueError "Quality threshold must be between 0.0 and 1.0")
  else if negb (Qleb 0 confidence && Qleb confidence 1) then
    Raise (ValueError "Confidence threshold must be between 0.0 and 1.0")
  else if (size <? 1)%Z then
    Raise (ValueError "Batch size must be positive")
  else
    Ok {| quality_threshold := quality;
          confidence_threshold := confidence;
          batch_size := size;
          validation_cache := if enable_caching then Some ∅ else None |}.

Definition with_cache (self : ReadFilter) (c : option (gmap N Q))
  : ReadFilter :=
  {| quality_threshold := quality_threshold self;
     confidence_threshold := confidence_threshold self;
     batch_size := batch_size self;
     validation_cache := c |}.

(** [self.validation_cache.get(read.id)] when the cache is enabled. *)
Definition cache_get (self : ReadFilter) (key : N) : option Q :=
  match validation_cache self with
  | Some c => c !! key
  | None => None
  end.

(** [self.validation_cache[read.id] = quality_score] when enabled. *)
Definition cache_set (self : ReadFilter) (key : N) (score : Q) : ReadFilter :=
  match validation_cache self with
  | Some c => with_cache self (Some (<[key := score]> c))
  | None => self
  end.

Definition calculate_read_quality (self : ReadFilter) (read : Read)
  : Q * ReadFilter :=
  match cache_get self (uuid read) with
  | Some cached_score => (cached_score, self)
  | None =>
      let signal_range := (MAX_SIGNAL_STRENGTH - MIN_SIGNAL_STRENGTH)%Q in
      let normalized_signal :=
        ((signal_strength read - MIN_SIGNAL_STRENGTH) / signal_range)%Q in
      if negb (fst (validate_signal_strength (signal_strength read))) then
        (0%Q, self)
      else
        let signal_weight := 0.6%Q in
        let time_weight := 0.4%Q in
        let time_factor := 1%Q in
        let quality_score :=
          (normalized_signal * signal_weight + time_factor * time_weight)%Q in
        (quality_score, cache_set self (uuid read) quality_score)
  end.

(** [await asyncio.gather] over the [calculate_read_quality] tasks:
    the coroutines have no suspension point and run in list order. *)
Fixpoint gather_quality (self : ReadFilter) (reads : list Read)
  : list Q * ReadFilter :=
  match reads with
  | [] => ([], self)
  | read :: rest =>
      let '(score, self1) := calculate_read_quality self read in
      let '(scores, self2) := gather_quality self1 rest in
      (score :: scores, self2)
  end.

Definition signal_valid (read : Read) : bool :=
  fst (validate_signal_strength (signal_strength read)).

Definition process_batch_async (self : ReadFilter) (batch : list Read)
  : list Read * ReadFilter :=
  let tasks := List.filter signal_valid batch in
  match tasks with
  | [] => ([], self)
  | _ =>
      let '(quality_scores, self') := gather_quality self tasks in
      let processed_batch :=
        List.map fst
          (List.filter
             (λ p : Read * Q, Qleb (quality_threshold self) (snd p))
             (zip batch quality_scores)) in
      (processed_batch, self')
  end.

(** [reads[i:i + n] for i in range(0, len(reads), n)] for [0 < n]. *)
Fixpoint slices {A} (fuel n : nat) (l : list A) : list (list A) :=
  match fuel with
  | O => []
  | S fuel' =>
      match l with
      | [] => []
      | _ => take n l :: slices fuel' n (drop n l)
      end
  end.

(** The list comprehension that builds [batches]; [range] raises on a zero
    step and is empty for a negative one. *)
Definition split_batches (self : ReadFilter) (reads : list Read)
  : result (list (list Read)) :=
  if (batch_size self =? 0)%Z then
    Raise (ValueError "range() arg 3 must not be zero")
  else if (batch_size self <? 0)%Z then Ok []
  else Ok (slices (length reads) (Z.to_nat (batch_size self)) reads).

(** The outer [asyncio.gather]: the batches' validation tasks run in batch
    order. *)
Fixpoint gather_batches (self : ReadFilter) (batches : list (list Read))
  : list (list Read) * ReadFilter :=
  match batches with
  | [] => ([], self)
  | batch :: rest =>
      let '(processed, self1) := process_batch_async self batch in
      let '(others, self2) := gather_batches self1 rest in
      (processed :: others, self2)
  end.

(** The closing loop of [apply_filters] over the processed reads. *)
Fixpoint combine_and_filter (self : ReadFilter) (reads : list Read)
  : list Read * ReadFilter :=
  match reads with
  | [] => ([], self)
  | read :: rest =>
      let '(quality_score, self1) := calculate_read_quality self read in
      let '(filtered_reads, self2) := combine_and_filter self1 rest in
      if Qleb (quality_threshold self) quality_score
      then (read :: filtered_reads, self2)
      else (filtered_reads, self2)
  end.

Definition apply_filters (self : ReadFilter) (reads : list Read)
  : result (list Read) * ReadFilter :=
  match reads with
  | [] => (Ok [], self)
  | _ =>
      match split_batches self reads with
      | Raise e => (Raise e, self)
      | Ok batches =>
          let '(processed_batches, self1) := gather_batches self batches in
          let '(filtered_reads, self2) :=
            combine_and_filter self1 (concat processed_batches) in
          (Ok filtered_reads, self2)
      end
  end.

End Filter.

(** ** [models/reader.py] *)

Module ReaderModel.
Import Py ReadModel.

Definition DEFAULT_PORT : Z := 5084%Z.
Definition DEFAULT_READ_INTERVAL_MS : Z := 1000%Z.
Definition HEARTBEAT_THRESHOLD_SECONDS : Q := 60%Q.

Inductive ReaderStatus : Type := ONLINE | OFFLINE | ERROR | MAINTENANCE.

(** The [.value] of a status. *)
Definition status_value (s : ReaderStatus) : string :=
  match s with
  | ONLINE => "ONLINE"
  | OFFLINE => "OFFLINE"
  | ERROR => "ERROR"
  | MAINTENANCE => "MAINTENANCE"
  end.

Definition ReaderStatus_eqb (a b : ReaderStatus) : bool :=
  match a, b with
  | ONLINE, ONLINE | OFFLINE, OFFLINE | ERROR, ERROR
  | MAINTENANCE, MAINTENANCE => true
  | _, _ => false
  end.

Definition STATUS_TRANSITION_MATRIX : gmap string (list string) :=
  list_to_map
    [ ("OFFLINE", ["ONLINE"; "MAINTENANCE"]);
      ("ONLINE", ["OFFLINE"; "ERROR"; "MAINTENANCE"]);
      ("ERROR", ["OFFLINE"; "MAINTENANCE"]);
      ("MAINTENANCE", ["OFFLINE"]) ].

Inductive PowerLevel : Type := LOW | MEDIUM | HIGH.

Definition power_value (p : PowerLevel) : string :=
  match p with LOW => "LOW" | MEDIUM => "MEDIUM" | HIGH => "HIGH" end.

Definition get_dbm_range (p : PowerLevel) : Q * Q :=
  match p with
  | LOW => ((-70)%Q, (-55)%Q)
  | MEDIUM => ((-55)%Q, (-35)%Q)
  | HIGH => ((-35)%Q, (-20)%Q)
  end.

(** The values stored in a [status_history] entry; an entry is a [dict]
    from field names to such values.  Instants are UTC seconds. *)
Inductive value : Type :=
| VTime (t : Q)
| VStatus (s : ReaderStatus)
| VStr (s : string).

(** [v == ReaderStatus.X] *)
Definition value_is_status (v : value) (s : ReaderStatus) : bool :=
  match v with VStatus s' => ReaderStatus_eqb s' s | _ => false end.

(** The [health_metrics] dict, which the code always builds with these
    five keys. *)
Record HealthMetrics : Type := {
  read_success_rate : Q;
  signal_strength_avg : Q;
  network_latency_ms : Q;
  error_count : nat;
  total_reads : nat
}.

Definition default_health_metrics : HealthMetrics :=
  {| read_success_rate := 100%Q;
     signal_strength_avg := (-45)%Q;
     network_latency_ms := 0%Q;
     error_count := 0;
     total_reads := 0 |}.

Record Reader : Type := {
  name : string;
  ip_address : string;
  port : Z;
  power_level : PowerLevel;
  read_interval_ms : Z;
  reader_uuid : N;
  status : ReaderStatus;
  filtering_enabled : bool;
  last_heartbeat : Q;
  additional_params : gmap string string;
  status_history : list (gmap string value);
  health_metrics : HealthMetrics
}.

Definition is_digit (c : ascii) : bool :=
  let n := nat_of_ascii c in (48 <=? n) && (n <=? 57).

(** The greedy [[0-9]{1,3}]: how many digits were taken, at most [most],
    and the rest.  The character after a group is never a digit in the
    pattern, so taking fewer digits cannot turn a failure into a match. *)
Fixpoint take_digits (most : nat) (s : string) : nat * string :=
  match most with
  | O => (0, s)
  | S most' =>
      match s with
      | String c s' =>
          if is_digit c then
            let '(k, rest) := take_digits most' s' in (S k, rest)
          else (0, s)
      | EmptyString => (0, s)
      end
  end.

Definition match_octet (s : string) : option string :=
  let '(k, rest) := take_digits 3 s in
  if k =? 0 then None else Some rest.

Definition match_octet_dot (s : string) : option string :=
  match match_octet s with
  | Some (String c rest) => if nat_of_ascii c =? 46 then Some rest else None
  | _ => None
  end.

(** [re.match(r'^(?:[0-9]{1,3}\.){3}[0-9]{1,3}$', s)] *)
Definition IP_ADDRESS_PATTERN_match (s : string) : bool :=
  match match_octet_dot s with
  | Some s1 =>
      match match_octet_dot s1 with
      | Some s2 =>
          match match_octet_dot s2 with
          | Some s3 =>
              match match_octet s3 with
              | Some rest => at_dollar rest
              | None => false
              end
          | None => false
          end
      | None => false
      end
  | None => false
  end.

Definition with_history (self : Reader) (h : list (gmap string value))
  : Reader :=
  {| name := name self; ip_address := ip_address self; port := port self;
     power_level := power_level self;
     read_interval_ms := read_interval_ms self;
     reader_uuid := reader_uuid self; status := status self;
     filtering_enabled := filtering_enabled self;
     last_heartbeat := last_heartbeat self;
     additional_params := additional_params self;
     status_history := h; health_metrics := health_metrics self |}.

(** [now] is the [datetime.now(timezone.utc)] of the history entry. *)
Definition __post_init__ (now : Q) (self : Reader) : result Reader :=
  if negb (IP_ADDRESS_PATTERN_match (ip_address self)) then
    Raise (ValueError "Invalid IP address format")
  else if negb ((1 <=? port self)%Z && (port self <=? 65535)%Z) then
    Raise (ValueError "Port must be between 1 and 65535")
  else if (read_interval_ms self <? 100)%Z then
    Raise (ValueError "Read interval must be at least 100ms")
  else
    Ok (with_history self
          (status_history self ++
             [ {[ "timestamp" := VTime now;
                  "status" := VStatus (status self);
                  "reason" := VStr "Initial configuration" ]} ])).

(** [Reader(name=.., ip_address=..)] with every other field at its
    default; [id_] is the fresh UUID and [now] the construction instant,
    read once for [last_heartbeat] and once more in [__post_init__]. *)
Definition new_Reader (id_ : N) (now : Q) (nm ip : string) : result Reader :=
  __post_init__ now
    {| name := nm; ip_address := ip; port := DEFAULT_PORT;
       power_level := MEDIUM; read_interval_ms := DEFAULT_READ_INTERVAL_MS;
       reader_uuid := id_; status := OFFLINE; filtering_enabled := true;
       last_heartbeat := now; additional_params := ∅;
       status_history := []; health_metrics := default_health_metrics |}.

Definition inc_error_count (m : HealthMetrics) : HealthMetrics :=
  {| read_success_rate := read_success_rate m;
     signal_strength_avg := signal_strength_avg m;
     network_latency_ms := network_latency_ms m;
     error_count := S (error_count m);
     total_reads := total_reads m |}.

(** [x in STATUS_TRANSITION_MATRIX.get(key, [])] *)
Definition transition_allowed (current new_status : ReaderStatus) : bool :=
  existsb (String.eqb (status_value new_status))
    (default [] (STATUS_TRANSITION_MATRIX !! status_value current)).

(** The outcome of the call and the reader object after it. *)
Definition update_status (now : Q) (self : Reader)
  (new_status : ReaderStatus) (reason : string) : result bool * Reader :=
  if negb (transition_allowed (status self) new_status) then
    (Raise (ValueError "Invalid status transition"), self)
  else
    let old_status := status self in
    let record : gmap string value :=
      {[ "timestamp" := VTime now;
         "old_status" := VStatus old_status;
         "new_status" := VStatus new_status;
         "reason" := VStr reason ]} in
    (Ok true,
     {| name := name self; ip_address := ip_address self; port := port self;
        power_level := power_level self;
        read_interval_ms := read_interval_ms self;
        reader_uuid := reader_uuid self;
        status := new_status;
        filtering_enabled := filtering_enabled self;
        last_heartbeat := now;
        additional_params := additional_params self;
        status_history := status_history self ++ [record];
        health_metrics :=
          if ReaderStatus_eqb new_status ERROR
          then inc_error_count (health_metrics self)
          else health_metrics self |}).

(** [next((entry for entry in entries if entry["new_status"] ==
    ReaderStatus.ERROR), None)]; subscripting a missing key raises. *)
Fixpoint next_error_entry (entries : list (gmap string value))
  : result (option (gmap string value)) :=
  match entries with
  | [] => Ok None
  | entry :: rest =>
      match entry !! "new_status" with
      | None => Raise (KeyError "new_status")
      | Some v =>
          if value_is_status v ERROR then Ok (Some entry)
          else next_error_entry rest
      end
  end.

Record HealthStatus : Type := {
  hs_status : string;
  is_online : bool;
  heartbeat_age_seconds : Q;
  heartbeat_ok : bool;
  hs_power_level : string;
  metrics : HealthMetrics;
  last_error : option (gmap string value);
  signal_strength_ok : bool
}.

(** [now] is [current_time]. *)
Definition is_healthy (now : Q) (self : Reader) : result HealthStatus :=
  let heartbeat_age := (now - last_heartbeat self)%Q in
  let last :=
    match status_history self with
    | [] => Ok None
    | _ => next_error_entry (rev (status_history self))
    end in
  match last with
  | Raise e => Raise e
  | Ok last_error_entry =>
      let '(min_dbm, max_dbm) := get_dbm_range (power_level self) in
      let '(signal_valid, _) :=
        validate_signal_strength (signal_strength_avg (health_metrics self)) in
      Ok {| hs_status := status_value (status self);
            is_online := ReaderStatus_eqb (status self) ONLINE;
            heartbeat_age_seconds := heartbeat_age;
            heartbeat_ok := Qleb heartbeat_age HEARTBEAT_THRESHOLD_SECONDS;
            hs_power_level := power_value (power_level self);
            metrics := health_metrics self;
            last_error := last_error_entry;
            signal_strength_ok := signal_valid |}
  end.

End ReaderModel.

(** ** [services/read_processor.py] *)

Module Processor.
Import Py ReadModel.

Definition BATCH_SIZE : nat := 100.
Definition BATCH_TIMEOUT : Q := 1%Q.
Definition PROCESSING_INTERVAL : Q := 0.1%Q.
Definition MAX_QUEUE_SIZE : Z := 10000%Z.
Definition CIRCUIT_BREAKER_THRESHOLD : Q := 0.15%Q.
Definition ERROR_WINDOW_SIZE : Z := 300%Z.

(** The Prometheus collectors as their current values; the labelled error
    counter is a map from the [error_type] label. *)
Record Metrics : Type := {
  reads_received : nat;
  reads_processed : nat;
  processing_errors : gmap string nat;
  queue_size : nat
}.

(** [_read_queue] is the content of the [asyncio.Queue], oldest first, and
    [maxsize] the bound it was created with. *)
Record ReadProcessor : Type := {
  _deduplicator : Dedup.ReadDeduplicator;
  _filter : Filter.ReadFilter;
  _read_queue : list Read;
  maxsize : Z;
  _running : bool;
  _processed_count : nat;
  _error_counts : gmap string nat;
  _metrics : Metrics;
  _batch_timeout : Q
}.

Definition __init__ (time_window_seconds signal_threshold_dbm
  quality_threshold : Q) (queue_size_limit : Z) (batch_timeout : Q)
  : result ReadProcessor :=
  match Dedup.__init__ time_window_seconds signal_threshold_dbm
          Dedup.DEFAULT_MAX_BUFFER_SIZE with
  | Raise e => Raise e
  | Ok dedup =>
      match Filter.__init__ quality_threshold
              Filter.DEFAULT_CONFIDENCE_THRESHOLD Filter.DEFAULT_BATCH_SIZE
              true with
      | Raise e => Raise e
      | Ok flt =>
          Ok {| _deduplicator := dedup;
                _filter := flt;
                _read_queue := [];
                maxsize := queue_size_limit;
                _running := false;
                _processed_count := 0;
                _error_counts := ∅;
                _metrics := {| reads_received := 0; reads_processed := 0;
                               processing_errors := ∅; queue_size := 0 |};
                _batch_timeout := batch_timeout |}
      end
  end.

Definition with_metrics (self : ReadProcessor) (m : Metrics) : ReadProcessor :=
  {| _deduplicator := _deduplicator self; _filter := _filter self;
     _read_queue := _read_queue self; maxsize := maxsize self;
     _running := _running self; _processed_count := _processed_count self;
     _error_counts := _error_counts self; _metrics := m;
     _batch_timeout := _batch_timeout self |}.

Definition with_queue (self : ReadProcessor) (q : list Read) : ReadProcessor :=
  {| _deduplicator := _deduplicator self; _filter := _filter self;
     _read_queue := q; maxsize := maxsize self;
     _running := _running self; _processed_count := _processed_count self;
     _error_counts := _error_counts self; _metrics := _metrics self;
     _batch_timeout := _batch_timeout self |}.

(** [self._metrics['reads_received'].inc()] *)
Definition inc_reads_received (self : ReadProcessor) : ReadProcessor :=
  let m := _metrics self in
  with_metrics self
    {| reads_received := S (reads_received m);
       reads_processed := reads_processed m;
       processing_errors := processing_errors m;
       queue_size := queue_size m |}.

(** [self._metrics['processing_errors'].labels(error_type=l).inc()] *)
Definition inc_processing_errors (l : string) (self : ReadProcessor)
  : ReadProcessor :=
  let m := _metrics self in
  with_metrics self
    {| reads_received := reads_received m;
       reads_processed := reads_processed m;
       processing_errors :=
         <[l := S (default 0 (processing_errors m !! l))]> (processing_errors m);
       queue_size := queue_size m |}.

(** [self._metrics['queue_size'].set(self._read_queue.qsize())] *)
Definition set_queue_size (self : ReadProcessor) : ReadProcessor :=
  let m := _metrics self in
  with_metrics self
    {| reads_received := reads_received m;
       reads_processed := reads_processed m;
       processing_errors := processing_errors m;
       queue_size := length (_read_queue self) |}.

(** Which [return] of [process_read] was taken. *)
Inductive ingress : Type :=
| Queued                  (* [return True] *)
| Backpressure            (* [return False] after the capacity test *)
| Failed (e : exn).       (* [return False] in the [except] clause *)

Definition process_read_outcome (self : ReadProcessor) (read : Read)
  : ingress * ReadProcessor :=
  let '(valid, error_msg) := validate_signal_strength (signal_strength read) in
  if negb valid then
    (Failed (ValueError (signal_msg_text error_msg)),
     inc_processing_errors "queue" self)
  else
    let self1 := inc_reads_received self in
    if (maxsize self1 <=? Z.of_nat (length (_read_queue self1)))%Z then
      (Backpressure, self1)
    else
      (* the queue is not full, so [put] returns without suspending *)
      let self2 := with_queue self1 (_read_queue self1 ++ [read]) in
      (Queued, set_queue_size self2).

Definition process_read (self : ReadProcessor) (read : Read)
  : bool * ReadProcessor :=
  let '(outcome, self') := process_read_outcome self read in
  (match outcome with Queued => true | _ => false end, self').

(** [sum(self._error_counts.values())] *)
Definition total_errors (self : ReadProcessor) : nat :=
  map_fold (λ _ n acc, n + acc) 0 (_error_counts self).

Definition _check_error_threshold (self : ReadProcessor) : bool :=
  let total_processed :=
    if _processed_count self =? 0 then 1 else _processed_count self in
  let error_rate :=
    (inject_Z (Z.of_nat (total_errors self))
     / inject_Z (Z.of_nat total_processed))%Q in
  Qltb CIRCUIT_BREAKER_THRESHOLD error_rate.

Section WithLocalZone.
Variable local_utcoffset : Q.

(** [now] is the instant the deduplicator reads when it cleans its
    buffer. *)
Definition _process_batch (now : Q) (self : ReadProcessor)
  (reads : list Read) : result unit * ReadProcessor :=
  match reads with
  | [] => (Ok tt, self)
  | _ =>
      match Filter.apply_filters (_filter self) reads with
      | (Raise e, flt) =>
          (Raise e,
           inc_processing_errors "batch"
             {| _deduplicator := _deduplicator self; _filter := flt;
                _read_queue := _read_queue self; maxsize := maxsize self;
                _running := _running self;
                _processed_count := _processed_count self;
                _error_counts := _error_counts self;
                _metrics := _metrics self;
                _batch_timeout := _batch_timeout self |})
      | (Ok filtered_reads, flt) =>
          let '(dedup, deduplicated_reads) :=
            Dedup.process_reads local_utcoffset now (_deduplicator self)
              filtered_reads in
          let m := _metrics self in
          (Ok tt,
           {| _deduplicator := dedup; _filter := flt;
              _read_queue := _read_queue self; maxsize := maxsize self;
              _running := _running self;
              _processed_count :=
                _processed_count self + length deduplicated_reads;
              _error_counts := _error_counts self;
              _metrics :=
                {| reads_received := reads_received m;
                   reads_processed :=
                     reads_processed m + length deduplicated_reads;
                   processing_errors := processing_errors m;
                   queue_size := queue_size m |};
              _batch_timeout := _batch_timeout self |})
      end
  end.

(** What one turn of [_processing_loop] does with the batch it collected:
    the processor afterwards and the seconds it then sleeps. *)
Definition loop_turn (now : Q) (self : ReadProcessor) (batch : list Read)
  : ReadProcessor * Q :=
  match _process_batch now self batch with
  | (Ok _, self1) => (set_queue_size self1, PROCESSING_INTERVAL)
  | (Raise _, self1) =>
      let self2 := inc_processing_errors "loop" self1 in
      if _check_error_threshold self2 then (self2, 1%Q) else (self2, 0%Q)
  end.

(** The pipeline as its producers and its worker see it: the processor,
    the batch the worker is collecting, and a count of the reads turned
    away for lack of room, which the code itself does not keep. *)
Record Pipeline : Type := {
  processor : ReadProcessor;
  batch : list Read;
  drops : nat
}.

(** The atomic steps between suspension points. *)
Inductive event : Type :=
| Ingress (read : Read)          (* a producer calls [process_read] *)
| Get                            (* the worker's [queue.get()] returns *)
| ProcessBatch (now : Q).        (* the worker processes its batch *)

Definition step (p : Pipeline) (ev : event) : Pipeline :=
  match ev with
  | Ingress read =>
      let '(outcome, self') := process_read_outcome (processor p) read in
      {| processor := self'; batch := batch p;
         drops := match outcome with
                  | Backpressure => S (drops p)
                  | _ => drops p
                  end |}
  | Get =>
      if length (batch p) <? BATCH_SIZE then
        match _read_queue (processor p) with
        | [] => p
        | read :: rest =>
            {| processor := with_queue (processor p) rest;
               batch := batch p ++ [read]; drops := drops p |}
        end
      else p
  | ProcessBatch now =>
      let '(self', _) := loop_turn now (processor p) (batch p) in
      {| processor := self'; batch := []; drops := drops p |}
  end.

Definition run (p : Pipeline) (evs : list event) : Pipeline :=
  fold_left step evs p.

Definition start_pipeline (self : ReadProcessor) : Pipeline :=
  {| processor := self; batch := []; drops := 0 |}.

End WithLocalZone.

End Processor.

(** ** Notions used to state the properties *)

Module Notions.
Import Py ReadModel ReaderModel Dedup.

(** The characters of a string. *)
Fixpoint chars (s : string) : list ascii :=
  match s with
  | EmptyString => []
  | String c s' => c :: chars s'
  end.

(** What [__post_init__] leaves in [read_time]. *)
Definition normalized_read_time (t : datetime) : datetime :=
  if tzinfo_ne_utc (dt_tzinfo t) then replace_tzinfo t timezone_utc else t.

Definition tag_E200 : string := "E200123456789012345678AB".

(** An aware [datetime] in UTC. *)
Definition utc_instant (t : Q) : datetime :=
  {| wall := t; dt_tzinfo := Some timezone_utc |}.

(** The transition matrix as the specification lists it. *)
Definition matrix_allows (current new_status : ReaderStatus) : bool :=
  match current, new_status with
  | OFFLINE, ONLINE | OFFLINE, MAINTENANCE => true
  | ONLINE, OFFLINE | ONLINE, ERROR | ONLINE, MAINTENANCE => true
  | ERROR, OFFLINE | ERROR, MAINTENANCE => true
  | MAINTENANCE, OFFLINE => true
  | _, _ => false
  end.

(** A deduplicator fed one batch after another; each call comes with the
    instant its cleaning reads. *)
Fixpoint feed (local : Q) (d : ReadDeduplicator) (calls : list (Q * list Read))
  : ReadDeduplicator :=
  match calls with
  | [] => d
  | (now, reads) :: rest => feed local (fst (process_reads local now d reads)) rest
  end.


(** A read of the tag [tag_E200] taken by reader [r1] at the UTC instant
    [t] with signal [s]. *)
Definition tag_read (id_ : N) (t s : Q) : Read :=
  {| uuid := id_; rfid_tag := tag_E200; reader_id := "r1";
     signal_strength := s; read_time := utc_instant t;
     is_processed := false |}.



(** [ReadDeduplicator(time_window_seconds=w, signal_threshold_dbm=th,
    max_buffer_size=cap)] for valid arguments. *)
Definition deduplicator (w th : Q) (cap : Z) : ReadDeduplicator :=
  {| time_window_seconds := w; signal_threshold_dbm := th;
     _read_buffer := ∅; _max_buffer_size := cap;
     _dedup_counter := 0; _buffer_size_gauge := 0 |}.


(** The quality score as the specification defines it. *)
Definition spec_score (s : Q) : Q :=
  if Qleb (-70) s && Qleb s (-20)
  then (0.6 * ((s - (-70)) / 50) + 0.4 * 1)%Q
  else 0%Q.

Definition read_score (r : Read) : Q := spec_score (signal_strength r).


(** The identifiers of the reads stand for their scores: reads that share
    an [id] have the same score. *)
Definition ids_determine_scores (B : list Read) : Prop :=
  forall r r', In r B -> In r' B -> uuid r = uuid r' ->
    (read_score r == read_score r')%Q.

(** Whatever the cache holds for a read of [B] is that read's score. *)
Definition cache_agrees (f : Filter.ReadFilter) (B : list Read) : Prop :=
  forall r s, In r B -> Filter.cache_get f (uuid r) = Some s ->
    (s == read_score r)%Q.

(** [ReadFilter(quality_threshold=th, enable_caching=c)] for a valid
    threshold, the other arguments at their defaults. *)
Definition read_filter (th : Q) (caching : bool) : Filter.ReadFilter :=
  {| Filter.quality_threshold := th;
     Filter.confidence_threshold := Filter.DEFAULT_CONFIDENCE_THRESHOLD;
     Filter.batch_size := Filter.DEFAULT_BATCH_SIZE;
     Filter.validation_cache := if caching then Some ∅ else None |}.


(** [ReadProcessor(queue_size_limit=cap)] for the default window,
    thresholds and batch timeout. *)
Definition read_processor (cap : Z) : Processor.ReadProcessor :=
  {| Processor._deduplicator :=
       deduplicator 5 3 Dedup.DEFAULT_MAX_BUFFER_SIZE;
     Processor._filter := read_filter 0.7 true;
     Processor._read_queue := [];
     Processor.maxsize := cap;
     Processor._running := false;
     Processor._processed_count := 0;
     Processor._error_counts := ∅;
     Processor._metrics :=
       {| Processor.reads_received := 0; Processor.reads_processed := 0;
          Processor.processing_errors := ∅; Processor.queue_size := 0 |};
     Processor._batch_timeout := 1%Q |}.



(** What the pipeline keeps true between its steps. *)
Definition pipeline_invariant (p : Processor.Pipeline) : Prop :=
  let self := Processor.processor p in
  (Z.of_nat (length (Processor._read_queue self)) <= Processor.maxsize self)%Z
  /\ Processor.reads_processed (Processor._metrics self) + Processor.drops p
     + length (Processor._read_queue self) + length (Processor.batch p)
     <= Processor.reads_received (Processor._metrics self).

End Notions.

(** ** [services/read_processor.py]: shutdown *)

Module Shutdown.
Import Py ReadModel Processor.

(** [self._running = flag] *)
Definition with_running (self : ReadProcessor) (flag : bool) : ReadProcessor :=
  {| _deduplicator := _deduplicator self; _filter := _filter self;
     _read_queue := _read_queue self; maxsize := maxsize self;
     _running := flag; _processed_count := _processed_count self;
     _error_counts := _error_counts self; _metrics := _metrics self;
     _batch_timeout := _batch_timeout self |}.

Section WithLocalZone.
Variable local_utcoffset : Q.

(** The [while not self._read_queue.empty()] loop of [stop], run on its
    own: each turn takes up to [BATCH_SIZE] reads off the queue (no [get]
    suspends, the queue being non-empty) and processes them; an exception
    of [_process_batch] is logged and the loop goes on.  [clock i] is the
    instant the [i]-th batch reads; [fuel] bounds the turns. *)
Fixpoint stop_loop (fuel : nat) (clock : nat -> Q) (i : nat)
  (self : ReadProcessor) : ReadProcessor :=
  match fuel with
  | O => self
  | S fuel' =>
      match _read_queue self with
      | [] => self
      | _ =>
          let batch := take BATCH_SIZE (_read_queue self) in
          let self1 := with_queue self (drop BATCH_SIZE (_read_queue self)) in
          let '(_, self2) :=
            _process_batch local_utcoffset (clock i) self1 batch in
          stop_loop fuel' clock (S i) self2
      end
  end.

(** [stop]: every turn of the loop removes a read, so as many turns as
    the queue is long are enough. *)
Definition stop (clock : nat -> Q) (self : ReadProcessor) : ReadProcessor :=
  stop_loop (length (_read_queue self)) clock 0 (with_running self false).

End WithLocalZone.

End Shutdown.

(** ** [controllers/reader_controller.py]: the health endpoint *)

Module Controller.
Import Py ReadModel ReaderModel.

(** The dict [health_check] returns: the report built in the [try] block,
    or the one built in the [except] clause.  Timestamps are the clock
    readings before formatting. *)
Inductive SystemHealth : Type :=
| Report (status : string) (active_readers : nat)
    (readers : gmap string HealthStatus) (timestamp : Q)
| Unhealthy (error : exn) (timestamp : Q).

(** The [for reader_id, reader in self._readers.items()] loop; [_readers]
    is given in insertion order and [clock i] is the [i]-th clock reading
    of the call.  An exception comes with the number of readings made. *)
Fixpoint check_readers (clock : nat -> Q) (i : nat)
  (readers : list (string * Reader)) (status : string)
  (acc : gmap string HealthStatus)
  : (exn * nat) + (string * gmap string HealthStatus) :=
  match readers with
  | [] => inr (status, acc)
  | (reader_id, reader) :: rest =>
      match is_healthy (clock i) reader with
      | Raise e => inl (e, S i)
      | Ok reader_health =>
          check_readers clock (S i) rest
            (if heartbeat_ok reader_health then status else "degraded")
            (<[reader_id := reader_health]> acc)
      end
  end.

Definition health_check (clock : nat -> Q) (readers : list (string * Reader))
  : SystemHealth :=
  match check_readers clock 1 readers "healthy" ∅ with
  | inr (status, per_reader) =>
      Report status (length readers) per_reader (clock 0)
  | inl (e, i) => Unhealthy e (clock i)
  end.

End Controller.

(** ** Notions used to state further properties *)

Module Runs.
Import Py ReadModel ReaderModel Dedup Processor.

(** A string of the given characters. *)
Fixpoint string_of_chars (l : list ascii) : string :=
  match l with
  | [] => EmptyString
  | c :: l' => String c (string_of_chars l')
  end.

(** The line feed. *)
Definition LF : ascii := ascii_of_nat 10.

(** The full stop. *)
Definition DOT : ascii := ascii_of_nat 46.

(** One to three decimal digits. *)
Definition digit_group (g : list ascii) : Prop :=
  1 <= length g <= 3 /\ Forall (fun c => is_digit c = true) g.

(** A reader put through a series of [update_status] calls, each given as
    its instant, the status asked for and the reason; a call that raises
    leaves the reader as it was and the series goes on. *)
Fixpoint apply_updates (r : Reader) (calls : list (Q * ReaderStatus * string))
  : Reader :=
  match calls with
  | [] => r
  | (now, new_status, reason) :: rest =>
      apply_updates (snd (update_status now r new_status reason)) rest
  end.

(** A history entry that records a change into ERROR. *)
Definition is_error_entry (entry : gmap string value) : bool :=
  match entry !! "new_status" with
  | Some v => value_is_status v ERROR
  | None => false
  end.

(** The read is held in the buffer, in the bucket of its tag. *)
Definition buffered (buf : gmap string (list Read)) (r : Read) : Prop :=
  exists l, buf !! rfid_tag r = Some l /\ In r l.

(** The reads producers hand to [process_read] in a series of events. *)
Fixpoint ingress_reads (evs : list event) : list Read :=
  match evs with
  | [] => []
  | Ingress read :: rest => read :: ingress_reads rest
  | _ :: rest => ingress_reads rest
  end.

Definition is_process_batch (ev : event) : bool :=
  match ev with ProcessBatch _ => true | _ => false end.

(** The string does not begin with a digit. *)
Definition no_digit_ahead (s : string) : Prop :=
  match s with
  | EmptyString => True
  | String c _ => is_digit c = false
  end.

(** The address made of four groups of characters, with the given end. *)
Definition dotted (a b c d tail : list ascii) : string :=
  string_of_chars (a ++ DOT :: b ++ DOT :: c ++ DOT :: d ++ tail).

End Runs.

(** ** [app.py]: the processor built when the module is loaded *)

Module App.
Import Py.

(** The environment variables the module reads, each unset or set to a
    value that [float] or [int] has parsed. *)
Record Env : Type := {
  READ_WINDOW_SECONDS : option Q;
  SIGNAL_THRESHOLD_DBM : option Q;
  QUALITY_THRESHOLD : option Q;
  QUEUE_SIZE_LIMIT : option Z
}.

(** The module-level [read_processor = ReadProcessor(...)], with the
    defaults given to [os.getenv]. *)
Definition read_processor (env : Env) : result Processor.ReadProcessor :=
  Processor.__init__
    (default 1%Q (READ_WINDOW_SECONDS env))
    (default (-70)%Q (SIGNAL_THRESHOLD_DBM env))
    (default 0.8%Q (QUALITY_THRESHOLD env))
    (default 10000%Z (QUEUE_SIZE_LIMIT env))
    Processor.BATCH_TIMEOUT.

End App.


(** * Properties *)

Import Py ReadModel Notions.

(** ** Comparisons *)

Lemma Qleb_true (x y : Q) : Qleb x y = true <-> (x <= y)%Q.
Proof. apply Qle_bool_iff. Qed.

Lemma Qltb_true (x y : Q) : Qltb x y = true <-> (x < y)%Q.
Proof.
  unfold Qltb. rewrite negb_true_iff. split.
  - intros H. apply Qnot_le_lt. intros Hle.
    apply Qle_bool_iff in Hle. congruence.
  - intros H. destruct (Qle_bool y x) eqn:E; [|reflexivity].
    apply Qle_bool_iff in E. exfalso. exact (Qlt_not_le _ _ H E).
Qed.

Lemma Qltb_false (x y : Q) : Qltb x y = false <-> (y <= x)%Q.
Proof.
  unfold Qltb. rewrite negb_false_iff. apply Qle_bool_iff.
Qed.

Lemma Qleb_false (x y : Q) : Qleb x y = false <-> (y < x)%Q.
Proof.
  rewrite <- Qltb_true. unfold Qltb, Qleb.
  destruct (Qle_bool x y); simpl; split; congruence.
Qed.

(** ** The [Read] value type *)

Lemma validate_signal_strength_true (s : Q) :
  fst (validate_signal_strength s) = true <->
  (MIN_SIGNAL_STRENGTH <= s /\ s <= MAX_SIGNAL_STRENGTH)%Q.
Proof.
  unfold validate_signal_strength.
  destruct (Qltb s MIN_SIGNAL_STRENGTH) eqn:E1; simpl.
  - apply Qltb_true in E1. split; [discriminate|].
    intros [H _]. exfalso. exact (Qlt_not_le _ _ E1 H).
  - apply Qltb_false in E1.
    destruct (Qltb MAX_SIGNAL_STRENGTH s) eqn:E2; simpl.
    + apply Qltb_true in E2. split; [discriminate|].
      intros [_ H]. exfalso. exact (Qlt_not_le _ _ E2 H).
    + apply Qltb_false in E2. tauto.
Qed.

Lemma lstrip_empty (s : string) :
  lstrip s = EmptyString <-> Forall (fun c => isspace c = true) (chars s).
Proof.
  induction s as [|c s IH]; simpl.
  - split; [constructor | reflexivity].
  - destruct (isspace c) eqn:E.
    + rewrite IH. split.
      * intros H. constructor; assumption.
      * intros H. inversion H; assumption.
    + split; [discriminate|].
      intros H. inversion H; congruence.
Qed.

Lemma lstrip_head (s : string) :
  lstrip s = EmptyString \/
  exists c s', lstrip s = String c s' /\ isspace c = false.
Proof.
  induction s as [|c s IH]; simpl.
  - left; reflexivity.
  - destruct (isspace c) eqn:E; [exact IH|].
    right. exists c, s. split; [reflexivity | exact E].
Qed.

Lemma rstrip_head (c : ascii) (s : string) :
  isspace c = false -> rstrip (String c s) <> EmptyString.
Proof.
  intros E. simpl. destruct (rstrip s); [rewrite E|]; discriminate.
Qed.

Lemma strip_empty (s : string) :
  strip s = EmptyString <-> Forall (fun c => isspace c = true) (chars s).
Proof.
  unfold strip. rewrite <- lstrip_empty.
  destruct (lstrip_head s) as [H | (c & s' & H & E)]; rewrite H.
  - simpl. tauto.
  - split; [|discriminate].
    intros Hr. exfalso. exact (rstrip_head c s' E Hr).
Qed.

Lemma all_space_or_not (l : list ascii) :
  Forall (fun c => isspace c = true) l \/
  exists c, In c l /\ isspace c = false.
Proof.
  induction l as [|c l [IH | (d & Hd & E)]].
  - left. constructor.
  - destruct (isspace c) eqn:E.
    + left. constructor; assumption.
    + right. exists c. split; [left; reflexivity | exact E].
  - right. exists d. split; [right; exact Hd | exact E].
Qed.

Lemma str_bool_strip (s : string) :
  str_bool (strip s) = true <-> exists c, In c (chars s) /\ isspace c = false.
Proof.
  split.
  - intros H. destruct (all_space_or_not (chars s)) as [Hall | He].
    + apply strip_empty in Hall. rewrite Hall in H. discriminate.
    + exact He.
  - intros (c & Hc & E).
    destruct (strip s) eqn:Es; [|reflexivity].
    apply strip_empty in Es.
    rewrite List.Forall_forall in Es. specialize (Es c Hc). congruence.
Qed.

Lemma new_Read_cases (id_ : N) (tag rid : string) (s : Q) (t : datetime) :
  (_TAG_PATTERN_match tag = true /\
   fst (validate_signal_strength s) = true /\
   str_bool (strip rid) = true /\
   new_Read id_ tag rid s t =
     Ok {| uuid := id_; rfid_tag := tag; reader_id := rid;
           signal_strength := s; read_time := normalized_read_time t;
           is_processed := false |})
  \/
  ((_TAG_PATTERN_match tag = false \/
    fst (validate_signal_strength s) = false \/
    str_bool (strip rid) = false) /\
   exists msg, new_Read id_ tag rid s t = Raise (ValueError msg)).
Proof.
  unfold new_Read, ReadModel.__post_init__, normalized_read_time. simpl.
  destruct (_TAG_PATTERN_match tag) eqn:Et; simpl.
  2:{ right. split; [tauto | eauto]. }
  destruct (validate_signal_strength s) as [valid m] eqn:Ev. simpl.
  destruct valid; simpl.
  2:{ right. split; [tauto | eauto]. }
  destruct (str_bool (strip rid)) eqn:Er; simpl.
  2:{ right. split; [tauto | eauto]. }
  left. repeat split.
  destruct t as [w tz]. simpl.
  destruct (tzinfo_ne_utc tz); reflexivity.
Qed.

(** Concrete comparisons of rationals. *)
Ltac q_compare := repeat split; unfold Qle, Qlt; simpl; lia.



(** C10: [read_time] never makes construction fail.  With a well-formed
    tag, a [reader_id] that is not blank and an in-range signal, the
    constructor returns a [Read] for every [read_time]; a [read_time] whose
    [tzinfo] is not UTC comes back with [tzinfo] replaced by UTC and the
    clock fields as they were, so the [tzinfo] of the constructed [Read]
    equals UTC. *)
Theorem read_time_never_rejected
  (id_ : N) (tag rid : string) (s : Q) (t : datetime) :
  _TAG_PATTERN_match tag = true ->
  (exists c, In c (chars rid) /\ isspace c = false) ->
  (-70 <= s /\ s <= -20)%Q ->
  exists r : Read,
    new_Read id_ tag rid s t = Ok r
    /\ wall (read_time r) = wall t
    /\ tzinfo_ne_utc (dt_tzinfo (read_time r)) = false
    /\ read_time r =
         (if tzinfo_ne_utc (dt_tzinfo t)
          then {| wall := wall t; dt_tzinfo := Some timezone_utc |}
          else t).
Proof.
  intros Ht Hr Hs.
  apply str_bool_strip in Hr.
  apply validate_signal_strength_true in Hs.
  destruct (new_Read_cases id_ tag rid s t)
    as [(_ & _ & _ & Hnew) | (Hbad & _)].
  2:{ destruct Hbad as [Hb | [Hb | Hb]]; congruence. }
  eexists. split; [exact Hnew|].
  unfold normalized_read_time, replace_tzinfo. simpl.
  destruct (tzinfo_ne_utc (dt_tzinfo t)) eqn:E; simpl; auto.
Qed.

Lemma read_time_never_rejected_witness :
  let t := {| wall := 1000%Q; dt_tzinfo := Some (Timezone 3600%Q "CET") |} in
  _TAG_PATTERN_match tag_E200 = true /\
  (exists c, In c (chars "r1") /\ isspace c = false) /\
  (-70 <= -50 /\ -50 <= -20)%Q /\
  exists r : Read,
    new_Read 7%N tag_E200 "r1" (-50)%Q t = Ok r
    /\ wall (read_time r) = wall t
    /\ tzinfo_ne_utc (dt_tzinfo (read_time r)) = false
    /\ read_time r =
         (if tzinfo_ne_utc (dt_tzinfo t)
          then {| wall := wall t; dt_tzinfo := Some timezone_utc |}
          else t).
Proof.
  intros t.
  assert (H1 : _TAG_PATTERN_match tag_E200 = true) by reflexivity.
  assert (H2 : exists c, In c (chars "r1") /\ isspace c = false).
  { exists "r"%char. split; [left; reflexivity | reflexivity]. }
  assert (H3 : (-70 <= -50 /\ -50 <= -20)%Q) by q_compare.
  split; [exact H1|]. split; [exact H2|]. split; [exact H3|].
  exact (read_time_never_rejected 7%N tag_E200 "r1" (-50)%Q t H1 H2 H3).
Defined.

(** ** The [Reader] aggregate *)

Import ReaderModel.

Lemma transition_allowed_matrix (current new_status : ReaderStatus) :
  transition_allowed current new_status = matrix_allows current new_status.
Proof. destruct current, new_status; vm_compute; reflexivity. Qed.

(** C4: [update_status] succeeds exactly on the transitions of the matrix.
    On success the reader has the new status and [status_history] is the
    old history followed by one entry that holds the old status, the new
    status and the reason; on any other transition the call raises a
    [ValueError] and the reader is left as it was.  OFFLINE to ERROR is
    such a transition. *)
Theorem update_status_follows_matrix
  (now : Q) (r : Reader) (new_status : ReaderStatus) (reason : string) :
  is_ok (fst (update_status now r new_status reason))
    = matrix_allows (status r) new_status
  /\ (if matrix_allows (status r) new_status then
        status (snd (update_status now r new_status reason)) = new_status
        /\ length (status_history (snd (update_status now r new_status reason)))
           = S (length (status_history r))
        /\ exists entry : gmap string value,
             status_history (snd (update_status now r new_status reason))
               = status_history r ++ [entry]
             /\ entry !! "old_status" = Some (VStatus (status r))
             /\ entry !! "new_status" = Some (VStatus new_status)
             /\ entry !! "reason" = Some (VStr reason)
      else
        is_value_error (fst (update_status now r new_status reason)) = true
        /\ snd (update_status now r new_status reason) = r)
  /\ matrix_allows OFFLINE ERROR = false.
Proof.
  unfold update_status. rewrite transition_allowed_matrix.
  destruct (matrix_allows (status r) new_status) eqn:E; simpl.
  - split; [reflexivity|]. split; [|reflexivity].
    split; [reflexivity|]. split.
    + rewrite length_app. simpl. lia.
    + eexists. split; [reflexivity|].
      repeat split; vm_compute; reflexivity.
  - repeat split; reflexivity.
Qed.

(** The scenario of the specification: OFFLINE, ONLINE, ERROR,
    MAINTENANCE, OFFLINE leaves five entries in the history. *)
Example update_status_sequence :
  forall r0, new_Reader 1%N 0%Q "Test Reader" "192.168.1.100" = Ok r0 ->
  let r1 := snd (update_status 1%Q r0 ONLINE "Connected successfully") in
  let r2 := snd (update_status 2%Q r1 ERROR "Connection failed") in
  let r3 := snd (update_status 3%Q r2 MAINTENANCE "Service") in
  let r4 := snd (update_status 4%Q r3 OFFLINE "Done") in
  status r4 = OFFLINE /\ length (status_history r4) = 5
  /\ error_count (health_metrics r4) = 1.
Proof.
  intros r0 H. vm_compute in H. injection H as <-.
  vm_compute. repeat split.
Qed.

(** C9, on the code: a reader as [Reader(name=.., ip_address=..)] builds
    it holds one history entry, with the keys [timestamp], [status] and
    [reason]; [is_healthy] subscripts it with ["new_status"] and raises
    [KeyError] where the claim has it return a null [last_error].  Once
    an ERROR entry is in the history the call returns, and
    [signal_strength_ok] is then settled by the global range [-70, -20]:
    a LOW-power reader, whose range is [-70, -55], is reported sound at
    an average of -45 dBm. *)
Theorem is_healthy_fresh_reader_raises :
  (forall (id_ : N) (created now : Q),
      exists r : Reader,
        new_Reader id_ created "Test Reader" "192.168.1.100" = Ok r
        /\ length (status_history r) = 1
        /\ is_healthy now r = Raise (KeyError "new_status"))
  /\ (forall (id_ : N) (created now : Q),
        exists r0 : Reader,
          new_Reader id_ created "Test Reader" "192.168.1.100" = Ok r0
          /\ let low :=
               {| name := name r0; ip_address := ip_address r0;
                  port := port r0; power_level := LOW;
                  read_interval_ms := read_interval_ms r0;
                  reader_uuid := reader_uuid r0; status := status r0;
                  filtering_enabled := filtering_enabled r0;
                  last_heartbeat := last_heartbeat r0;
                  additional_params := additional_params r0;
                  status_history := status_history r0;
                  health_metrics := health_metrics r0 |} in
             let r1 := snd (update_status created low ONLINE "Connected") in
             let r2 := snd (update_status created r1 ERROR "Lost") in
             get_dbm_range (power_level r2) = ((-70)%Q, (-55)%Q)
             /\ signal_strength_avg (health_metrics r2) = (-45)%Q
             /\ exists h,
                  is_healthy now r2 = Ok h /\ signal_strength_ok h = true).
Proof.
  split.
  - intros id_ created now. eexists. split; [reflexivity|].
    split; reflexivity.
  - intros id_ created now. eexists. split; [reflexivity|].
    split; [reflexivity|]. split; [reflexivity|].
    eexists. split; reflexivity.
Qed.

(** ** The deduplicator *)

Import Dedup.

Lemma buffer_total_empty : buffer_total ∅ = 0.
Proof. unfold buffer_total. apply map_fold_empty. Qed.

Lemma buffer_total_insert_fresh
  (k : string) (l : list Read) (m : gmap string (list Read)) :
  m !! k = None ->
  buffer_total (<[k := l]> m) = length l + buffer_total m.
Proof.
  intros Hk. unfold buffer_total.
  rewrite map_fold_insert_L; [reflexivity | | exact Hk].
  intros. lia.
Qed.

Lemma buffer_total_delete
  (k : string) (l : list Read) (m : gmap string (list Read)) :
  m !! k = Some l ->
  buffer_total m = length l + buffer_total (delete k m).
Proof.
  intros Hk. unfold buffer_total.
  rewrite (map_fold_delete_L _ _ k l m); [reflexivity | | exact Hk].
  intros. lia.
Qed.

(** Overwriting a bucket changes the total by the change of its length. *)
Lemma buffer_total_insert
  (k : string) (l : list Read) (m : gmap string (list Read)) :
  buffer_total (<[k := l]> m) + length (default [] (m !! k))
  = buffer_total m + length l.
Proof.
  destruct (m !! k) as [old|] eqn:Hk; simpl.
  - rewrite <- insert_delete_eq.
    rewrite buffer_total_insert_fresh by apply lookup_delete_eq.
    rewrite (buffer_total_delete k old m Hk). lia.
  - rewrite buffer_total_insert_fresh by exact Hk. lia.
Qed.

Lemma buffer_total_append
  (r : Read) (m : gmap string (list Read)) :
  buffer_total (<[rfid_tag r := default [] (m !! rfid_tag r) ++ [r]]> m)
  = S (buffer_total m).
Proof.
  pose proof (buffer_total_insert (rfid_tag r)
                (default [] (m !! rfid_tag r) ++ [r]) m) as H.
  rewrite length_app in H. simpl in H. lia.
Qed.

Lemma clean_bucket_length (local cutoff : Q) (l kept : list Read) :
  clean_bucket local cutoff l = Some kept -> length kept <= length l.
Proof.
  unfold clean_bucket. intros H.
  assert (Hk : kept =
    List.filter (fun read => Qltb cutoff (read_timestamp local read)) l).
  { destruct (List.filter _ l); [discriminate | congruence]. }
  rewrite Hk. apply List.filter_length_le.
Qed.

Lemma buffer_total_clean
  (local cutoff : Q) (m : gmap string (list Read)) :
  buffer_total (omap (clean_bucket local cutoff) m) <= buffer_total m.
Proof.
  induction m as [|k l m Hk IH] using map_ind.
  - rewrite omap_empty. lia.
  - rewrite omap_insert, (buffer_total_insert_fresh k l m Hk).
    destruct (clean_bucket local cutoff l) as [kept|] eqn:E.
    + rewrite buffer_total_insert_fresh.
      * apply clean_bucket_length in E. lia.
      * rewrite lookup_omap, Hk. reflexivity.
    + rewrite delete_id.
      * lia.
      * rewrite lookup_omap, Hk. reflexivity.
Qed.

Section DedupFacts.
Variable local : Q.

Lemma process_loop_max (d : ReadDeduplicator) (reads : list Read) :
  _max_buffer_size (fst (process_loop local d reads)) = _max_buffer_size d.
Proof.
  revert d. induction reads as [|r rest IH]; intros d; simpl; [reflexivity|].
  destruct (_max_buffer_size d <=? Z.of_nat (buffer_total (_read_buffer d)))%Z;
    [reflexivity|].
  destruct (existsb _ _).
  - rewrite IH. reflexivity.
  - specialize (IH (with_buffer d
      (<[rfid_tag r := default [] (_read_buffer d !! rfid_tag r) ++ [r]]>
         (_read_buffer d)))).
    destruct (process_loop local _ rest) as [d' out]. simpl in *. exact IH.
Qed.

(** Once the buffer holds [_max_buffer_size] reads the loop is left at
    once: nothing more is matched, counted, stored or emitted. *)
Lemma process_loop_full (d : ReadDeduplicator) (reads : list Read) :
  (_max_buffer_size d <= Z.of_nat (buffer_total (_read_buffer d)))%Z ->
  process_loop local d reads = (d, []).
Proof.
  intros H. destruct reads as [|r rest]; simpl; [reflexivity|].
  apply Z.leb_le in H. rewrite H. reflexivity.
Qed.

Lemma process_loop_bound (d : ReadDeduplicator) (reads : list Read) :
  (Z.of_nat (buffer_total (_read_buffer d)) <= _max_buffer_size d)%Z ->
  (Z.of_nat (buffer_total (_read_buffer (fst (process_loop local d reads))))
   <= _max_buffer_size d)%Z.
Proof.
  revert d. induction reads as [|r rest IH]; intros d Hd; simpl; [exact Hd|].
  destruct (_max_buffer_size d <=? Z.of_nat (buffer_total (_read_buffer d)))%Z
    eqn:Efull; [exact Hd|].
  apply Z.leb_gt in Efull.
  destruct (existsb _ _).
  - apply (IH (inc_dedup_counter d)). exact Hd.
  - set (d1 := with_buffer d _).
    assert (H1 : (Z.of_nat (buffer_total (_read_buffer d1))
                  <= _max_buffer_size d1)%Z).
    { unfold d1. simpl. rewrite buffer_total_append. lia. }
    specialize (IH d1 H1).
    destruct (process_loop local d1 rest) as [d' out]. simpl in *. exact IH.
Qed.

Lemma process_loop_sublist (d : ReadDeduplicator) (reads : list Read) :
  sublist (snd (process_loop local d reads)) reads.
Proof.
  revert d. induction reads as [|r rest IH]; intros d; simpl.
  - constructor.
  - destruct (_max_buffer_size d <=? _)%Z; [apply sublist_nil_l|].
    destruct (existsb _ _).
    + apply sublist_cons. apply IH.
    + specialize (IH (with_buffer d
        (<[rfid_tag r := default [] (_read_buffer d !! rfid_tag r) ++ [r]]>
           (_read_buffer d)))).
      destruct (process_loop local _ rest) as [d' out]. simpl in *.
      apply sublist_skip. exact IH.
Qed.

Lemma process_reads_sublist (now : Q) (d : ReadDeduplicator)
  (reads : list Read) :
  sublist (snd (process_reads local now d reads)) reads.
Proof.
  unfold process_reads. destruct reads as [|r rest]; [constructor|].
  pose proof (process_loop_sublist (_clean_buffer local now d) (r :: rest)) as H.
  destruct (process_loop local _ (r :: rest)) as [d' out]. exact H.
Qed.

Lemma process_reads_max (now : Q) (d : ReadDeduplicator) (reads : list Read) :
  _max_buffer_size (fst (process_reads local now d reads))
  = _max_buffer_size d.
Proof.
  unfold process_reads. destruct reads as [|r rest]; [reflexivity|].
  pose proof (process_loop_max (_clean_buffer local now d) (r :: rest)) as H.
  destruct (process_loop local _ (r :: rest)) as [d' out]. exact H.
Qed.

Lemma process_reads_bound (now : Q) (d : ReadDeduplicator)
  (reads : list Read) :
  (Z.of_nat (buffer_total (_read_buffer d)) <= _max_buffer_size d)%Z ->
  (Z.of_nat (buffer_total
               (_read_buffer (fst (process_reads local now d reads))))
   <= _max_buffer_size d)%Z.
Proof.
  intros Hd. unfold process_reads. destruct reads as [|r rest]; [exact Hd|].
  assert (Hc : (Z.of_nat (buffer_total
                            (_read_buffer (_clean_buffer local now d)))
                <= _max_buffer_size (_clean_buffer local now d))%Z).
  { unfold _clean_buffer. simpl.
    pose proof (buffer_total_clean local
                  (now - time_window_seconds d)%Q (_read_buffer d)). lia. }
  pose proof (process_loop_bound (_clean_buffer local now d) (r :: rest) Hc) as H.
  destruct (process_loop local _ (r :: rest)) as [d' out]. exact H.
Qed.

Lemma feed_bound (d : ReadDeduplicator) (calls : list (Q * list Read)) :
  (Z.of_nat (buffer_total (_read_buffer d)) <= _max_buffer_size d)%Z ->
  (Z.of_nat (buffer_total (_read_buffer (feed local d calls)))
   <= _max_buffer_size d)%Z.
Proof.
  revert d. induction calls as [|[now reads] rest IH]; intros d Hd; simpl.
  - exact Hd.
  - rewrite <- (process_reads_max now d reads).
    apply IH. rewrite process_reads_max.
    apply process_reads_bound. exact Hd.
Qed.

End DedupFacts.

Lemma is_duplicate_in_range (local : Q) (d : ReadDeduplicator) (r e : Read) :
  fst (validate_signal_strength (signal_strength r)) = true ->
  fst (validate_signal_strength (signal_strength e)) = true ->
  _is_duplicate local d r e
  = negb (Qltb (time_window_seconds d)
            (Qabs (read_timestamp local r - read_timestamp local e)))
    && Qltb (Qabs (signal_strength r - signal_strength e))
         (signal_threshold_dbm d).
Proof.
  intros Hr He. unfold _is_duplicate. rewrite Hr, He. simpl.
  destruct (Qltb (time_window_seconds d) _); reflexivity.
Qed.



Lemma init_deduplicator (w th : Q) (cap : Z) (d : ReadDeduplicator) :
  Dedup.__init__ w th cap = Ok d ->
  d = deduplicator w th cap /\ (0 < cap)%Z.
Proof.
  unfold Dedup.__init__.
  destruct (Qleb w 0); [discriminate|].
  destruct (Qltb th 0); [discriminate|].
  destruct (cap <=? 0)%Z eqn:E; [discriminate|].
  intros H. injection H as <-. split; [reflexivity|].
  apply Z.leb_gt in E. exact E.
Qed.

(** C6, as stated, fails: with a cap of one read, the first read of a tag
    fills the buffer; a second read of the same tag, 10 dBm away from the
    first and so no duplicate of it, is not emitted as distinct: the loop
    has been left before the read is looked at. *)
Lemma cap_drops_read_of_buffered_tag :
  ~ (forall (local : Q) (d : ReadDeduplicator) (r : Read),
        is_Some (_read_buffer d !! rfid_tag r) ->
        snd (process_loop local d [r])
        = (if existsb (_is_duplicate local d r)
                (default [] (_read_buffer d !! rfid_tag r))
           then [] else [r])).
Proof.
  intros H.
  set (d := fst (process_reads 0 0 (deduplicator 5 3 1) [tag_read 1 0 (-50)])).
  specialize (H 0%Q d (tag_read 2 1 (-40))).
  assert (Hs : is_Some (_read_buffer d !! rfid_tag (tag_read 2 1 (-40)))).
  { exists [tag_read 1 0 (-50)]. vm_compute. reflexivity. }
  specialize (H Hs). vm_compute in H. discriminate.
Qed.

(** C6, amended: the buffer of a deduplicator never holds more than
    [max_buffer_size] reads in total, whatever batches it is fed; and
    when the cap is reached the rest of the batch is dropped whatever its
    tags: unless there is room, the loop returns at once with the
    deduplicator as it was (buffer and duplicate counter included) and
    emits nothing.  With a cap of one, of two distinct reads of one tag
    only the first is emitted. *)
Theorem buffer_cap_drops_rest
  (local w th : Q) (cap : Z) (d0 : ReadDeduplicator)
  (calls : list (Q * list Read)) :
  Dedup.__init__ w th cap = Ok d0 ->
  (Z.of_nat (buffer_total (_read_buffer (feed local d0 calls))) <= cap)%Z
  /\ (forall (d : ReadDeduplicator) (reads : list Read),
        (Z.of_nat (buffer_total (_read_buffer d)) < _max_buffer_size d)%Z
        \/ process_loop local d reads = (d, []))
  /\ snd (process_reads local 0 (deduplicator 5 3 1)
            [tag_read 1 0 (-50); tag_read 2 1 (-40)])
     = [tag_read 1 0 (-50)].
Proof.
  intros Hinit. apply init_deduplicator in Hinit as [-> Hcap].
  split; [|split].
  - change cap with (_max_buffer_size (deduplicator w th cap)) at 2.
    apply feed_bound. simpl. rewrite buffer_total_empty. simpl. lia.
  - intros d reads.
    destruct (Z_lt_le_dec (Z.of_nat (buffer_total (_read_buffer d)))
                (_max_buffer_size d)) as [Hlt | Hge].
    + left. exact Hlt.
    + right. apply process_loop_full. exact Hge.
  - vm_compute. reflexivity.
Qed.

Lemma buffer_cap_drops_rest_witness :
  let calls := [(0%Q, [tag_read 1 0 (-50); tag_read 2 1 (-40)])] in
  Dedup.__init__ 5 3 1 = Ok (deduplicator 5 3 1) /\
  (Z.of_nat (buffer_total
               (_read_buffer (feed 0 (deduplicator 5 3 1) calls))) <= 1)%Z.
Proof.
  intros calls.
  assert (H : Dedup.__init__ 5 3 1 = Ok (deduplicator 5 3 1)) by reflexivity.
  split; [exact H|].
  exact (proj1 (buffer_cap_drops_rest 0 5 3 1 (deduplicator 5 3 1) calls H)).
Defined.

(** ** The quality filter *)

Import Filter.









(** The reads kept after zipping a batch with a list of scores come from
    the batch, in its order. *)
Lemma zip_filter_sublist (th : Q) (batch : list Read) (scores : list Q) :
  sublist
    (List.map fst
       (List.filter (fun p : Read * Q => Qleb th (snd p)) (zip batch scores)))
    batch.
Proof.
  revert scores. induction batch as [|r batch IH]; intros scores; simpl.
  - constructor.
  - destruct scores as [|s scores]; simpl; [apply sublist_nil_l|].
    destruct (Qleb th s); simpl;
      [apply sublist_skip | apply sublist_cons]; apply IH.
Qed.


Lemma slices_concat {A} (fuel n : nat) (l : list A) :
  0 < n -> length l <= fuel -> concat (slices fuel n l) = l.
Proof.
  intros Hn. revert l.
  induction fuel as [|fuel IH]; intros l Hl.
  - destruct l; [reflexivity | simpl in Hl; lia].
  - destruct l as [|x l]; [reflexivity|].
    change (slices (S fuel) n (x :: l))
      with (take n (x :: l) :: slices fuel n (drop n (x :: l))).
    rewrite concat_cons, IH.
    + apply take_drop.
    + rewrite length_drop. simpl in *. lia.
Qed.

Section FilterFacts.

(** The reads under consideration; their identifiers stand for their
    scores. *)
Variable U : list Read.
Hypothesis Hids : ids_determine_scores U.





End FilterFacts.

Section FilterBatches.

Variable U : list Read.
Hypothesis Hids : ids_determine_scores U.






End FilterBatches.

Lemma cache_agrees_disabled (f : ReadFilter) (B : list Read) :
  validation_cache f = None -> cache_agrees f B.
Proof.
  intros Hc r s _ Hget. unfold cache_get in Hget. rewrite Hc in Hget.
  discriminate.
Qed.


Lemma cache_agrees_incl (f : ReadFilter) (B B' : list Read) :
  incl B' B -> cache_agrees f B -> cache_agrees f B'.
Proof. intros Hin Hf r s Hr. apply Hf, Hin, Hr. Qed.

Lemma ids_determine_scores_incl (B B' : list Read) :
  incl B' B -> ids_determine_scores B -> ids_determine_scores B'.
Proof. intros Hin H r r' Hr Hr'. apply H; apply Hin; assumption. Qed.








(** ** The processing pipeline *)

Import Processor.

Lemma combine_and_filter_sublist (reads : list Read) (f : ReadFilter) :
  sublist (fst (combine_and_filter f reads)) reads.
Proof.
  revert f. induction reads as [|r reads IH]; intros f; simpl.
  - constructor.
  - destruct (calculate_read_quality f r) as [s f1].
    specialize (IH f1).
    destruct (combine_and_filter f1 reads) as [out f2]. simpl in IH.
    destruct (Qleb (quality_threshold f) s); simpl;
      [apply sublist_skip | apply sublist_cons]; exact IH.
Qed.

Lemma process_batch_async_sublist (f : ReadFilter) (batch : list Read) :
  sublist (fst (process_batch_async f batch)) batch.
Proof.
  unfold process_batch_async.
  destruct (List.filter signal_valid batch) as [|t tasks];
    [apply sublist_nil_l|].
  destruct (gather_quality f (t :: tasks)) as [scores f1]. simpl.
  apply zip_filter_sublist.
Qed.

Lemma gather_batches_sublist (batches : list (list Read)) (f : ReadFilter) :
  sublist (concat (fst (gather_batches f batches))) (concat batches).
Proof.
  revert f. induction batches as [|b batches IH]; intros f; simpl.
  - constructor.
  - pose proof (process_batch_async_sublist f b) as Hb.
    destruct (process_batch_async f b) as [processed f1].
    specialize (IH f1).
    destruct (gather_batches f1 batches) as [others f2]. simpl in *.
    apply sublist_app; assumption.
Qed.

Lemma split_batches_sublist (f : ReadFilter) (B : list Read)
  (batches : list (list Read)) :
  split_batches f B = Ok batches -> sublist (concat batches) B.
Proof.
  unfold split_batches.
  destruct (batch_size f =? 0)%Z eqn:E0; [discriminate|].
  destruct (batch_size f <? 0)%Z eqn:E1; intros H; injection H as <-.
  - apply sublist_nil_l.
  - apply Z.eqb_neq in E0. apply Z.ltb_ge in E1.
    rewrite slices_concat by lia. reflexivity.
Qed.

(** Whatever the filter holds, what [apply_filters] returns comes from
    its input, in order. *)
Lemma apply_filters_sublist (f : ReadFilter) (B out : list Read) :
  fst (apply_filters f B) = Ok out -> sublist out B.
Proof.
  unfold apply_filters. destruct B as [|r0 B0].
  { simpl. intros H. injection H as <-. constructor. }
  destruct (split_batches f (r0 :: B0)) as [batches|e] eqn:Es;
    [|discriminate].
  pose proof (split_batches_sublist f _ _ Es) as Hs.
  pose proof (gather_batches_sublist batches f) as Hg.
  destruct (gather_batches f batches) as [processed f1].
  pose proof (combine_and_filter_sublist (concat processed) f1) as Hc.
  destruct (combine_and_filter f1 (concat processed)) as [res f2].
  simpl in *. intros H. injection H as <-.
  transitivity (concat processed); [exact Hc|].
  transitivity (concat batches); assumption.
Qed.

Section PipelineFacts.
Variable local : Q.

(** A batch leaves the queue, its bound and the count of received reads
    alone, and adds at most its own length to the count of processed
    reads. *)
Lemma process_batch_counts (now : Q) (self : ReadProcessor)
  (reads : list Read) :
  let self' := snd (_process_batch local now self reads) in
  maxsize self' = maxsize self
  /\ _read_queue self' = _read_queue self
  /\ reads_received (_metrics self') = reads_received (_metrics self)
  /\ reads_processed (_metrics self')
     <= reads_processed (_metrics self) + length reads.
Proof.
  unfold _process_batch. destruct reads as [|r0 reads0].
  { simpl. repeat split; lia. }
  set (reads := r0 :: reads0).
  destruct (apply_filters (_filter self) reads) as [[filtered|e] flt] eqn:Ef.
  - assert (Hf : sublist filtered reads).
    { apply (apply_filters_sublist (_filter self)). rewrite Ef. reflexivity. }
    pose proof (process_reads_sublist local now (_deduplicator self) filtered)
      as Hd.
    destruct (process_reads local now (_deduplicator self) filtered)
      as [dedup out].
    cbn [fst snd] in *. cbn [maxsize _read_queue _metrics
      reads_received reads_processed].
    apply sublist_length in Hf. apply sublist_length in Hd.
    repeat split; lia.
  - cbn [fst snd]. unfold inc_processing_errors, with_metrics.
    cbn [maxsize _read_queue _metrics reads_received reads_processed].
    repeat split; lia.
Qed.

Lemma loop_turn_counts (now : Q) (self : ReadProcessor) (reads : list Read) :
  let self' := fst (loop_turn local now self reads) in
  maxsize self' = maxsize self
  /\ _read_queue self' = _read_queue self
  /\ reads_received (_metrics self') = reads_received (_metrics self)
  /\ reads_processed (_metrics self')
     <= reads_processed (_metrics self) + length reads.
Proof.
  pose proof (process_batch_counts now self reads) as H.
  unfold loop_turn.
  destruct (_process_batch local now self reads) as [[u|e] self1];
    cbn [fst snd] in *.
  - unfold set_queue_size, with_metrics.
    cbn [maxsize _read_queue _metrics reads_received reads_processed].
    exact H.
  - destruct (_check_error_threshold _); cbn [fst];
      unfold inc_processing_errors, with_metrics;
      cbn [maxsize _read_queue _metrics reads_received reads_processed];
      exact H.
Qed.

(** The three ways out of [process_read]. *)
Lemma process_read_outcome_cases (self : ReadProcessor) (read : Read) :
  (fst (validate_signal_strength (signal_strength read)) = false
   /\ (exists e, fst (process_read_outcome self read) = Failed e)
   /\ snd (process_read_outcome self read)
      = inc_processing_errors "queue" self)
  \/ (fst (validate_signal_strength (signal_strength read)) = true
      /\ (maxsize self <= Z.of_nat (length (_read_queue self)))%Z
      /\ process_read_outcome self read
         = (Backpressure, inc_reads_received self))
  \/ (fst (validate_signal_strength (signal_strength read)) = true
      /\ (Z.of_nat (length (_read_queue self)) < maxsize self)%Z
      /\ process_read_outcome self read
         = (Queued,
            set_queue_size
              (with_queue (inc_reads_received self)
                 (_read_queue self ++ [read])))).
Proof.
  unfold process_read_outcome.
  destruct (validate_signal_strength (signal_strength read)) as [valid msg].
  destruct valid; cbn [fst negb].
  - right.
    change (maxsize (inc_reads_received self)) with (maxsize self).
    change (_read_queue (inc_reads_received self)) with (_read_queue self).
    destruct (maxsize self <=? Z.of_nat (length (_read_queue self)))%Z eqn:E.
    + left. apply Z.leb_le in E. auto.
    + right. apply Z.leb_gt in E. auto.
  - left. split; [reflexivity|]. split; [eexists|]; reflexivity.
Qed.

Lemma step_maxsize (p : Pipeline) (ev : event) :
  maxsize (processor (step local p ev)) = maxsize (processor p).
Proof.
  destruct ev as [read| |now]; cbn [step].
  - destruct (process_read_outcome_cases (processor p) read)
      as [(_ & _ & H) | [(_ & _ & H) | (_ & _ & H)]];
      destruct (process_read_outcome (processor p) read) as [o self'];
      cbn [fst snd] in H; cbn [processor];
      [subst self' | injection H as _ -> | injection H as _ ->];
      reflexivity.
  - destruct (length (batch p) <? BATCH_SIZE); [|reflexivity].
    destruct (_read_queue (processor p)); reflexivity.
  - pose proof (loop_turn_counts now (processor p) (batch p)) as H.
    destruct (loop_turn local now (processor p) (batch p)) as [self' pause].
    cbn [fst processor] in *. tauto.
Qed.

Lemma step_invariant (p : Pipeline) (ev : event) :
  pipeline_invariant p -> pipeline_invariant (step local p ev).
Proof.
  unfold pipeline_invariant. intros [Hq Hc].
  destruct ev as [read| |now]; cbn [step].
  - destruct (process_read_outcome_cases (processor p) read)
      as [(_ & [e He] & H) | [(_ & Hfull & H) | (_ & Hroom & H)]];
      destruct (process_read_outcome (processor p) read) as [o self'];
      cbn [fst snd] in *.
    + subst o self'. cbn [processor batch drops].
      unfold inc_processing_errors, with_metrics.
      cbn [maxsize _read_queue _metrics reads_received reads_processed].
      split; lia.
    + injection H as -> ->. cbn [processor batch drops].
      unfold inc_reads_received, with_metrics.
      cbn [maxsize _read_queue _metrics reads_received reads_processed].
      split; lia.
    + injection H as -> ->. cbn [processor batch drops].
      unfold set_queue_size, with_queue, inc_reads_received, with_metrics.
      cbn [maxsize _read_queue _metrics reads_received reads_processed].
      rewrite length_app. cbn [length]. split; lia.
  - destruct (length (batch p) <? BATCH_SIZE); [|split; assumption].
    destruct (_read_queue (processor p)) as [|read rest] eqn:Eq;
      [rewrite Eq; split; assumption|].
    cbn [processor batch drops]. unfold with_queue.
    cbn [maxsize _read_queue _metrics reads_received reads_processed].
    rewrite length_app. cbn [length] in *. split; lia.
  - pose proof (loop_turn_counts now (processor p) (batch p))
      as (Hm & Hqu & Hr & Hp).
    destruct (loop_turn local now (processor p) (batch p)) as [self' pause].
    cbn [fst processor batch drops] in *.
    rewrite Hm, Hqu, Hr. cbn [length]. split; lia.
Qed.

Lemma run_invariant (evs : list event) (p : Pipeline) :
  pipeline_invariant p -> pipeline_invariant (run local p evs).
Proof.
  unfold run. revert p. induction evs as [|ev evs IH]; intros p Hp; simpl.
  - exact Hp.
  - apply IH, step_invariant, Hp.
Qed.

Lemma run_maxsize (evs : list event) (p : Pipeline) :
  maxsize (processor (run local p evs)) = maxsize (processor p).
Proof.
  unfold run. revert p. induction evs as [|ev evs IH]; intros p; simpl.
  - reflexivity.
  - rewrite IH. apply step_maxsize.
Qed.

Lemma init_processor (w th q bt : Q) (cap : Z) (p0 : ReadProcessor) :
  Processor.__init__ w th q cap bt = Ok p0 ->
  maxsize p0 = cap /\ _read_queue p0 = []
  /\ reads_received (_metrics p0) = 0 /\ reads_processed (_metrics p0) = 0.
Proof.
  unfold Processor.__init__.
  destruct (Dedup.__init__ w th DEFAULT_MAX_BUFFER_SIZE); [|discriminate].
  destruct (Filter.__init__ q DEFAULT_CONFIDENCE_THRESHOLD DEFAULT_BATCH_SIZE
              true); [|discriminate].
  intros H. injection H as <-. repeat split.
Qed.

Lemma process_read_full (self : ReadProcessor) (read : Read) :
  (maxsize self <= Z.of_nat (length (_read_queue self)))%Z ->
  fst (process_read self read) = false
  /\ _read_queue (snd (process_read self read)) = _read_queue self.
Proof.
  intros Hfull. unfold process_read.
  destruct (process_read_outcome_cases self read)
    as [(_ & [e He] & H) | [(_ & _ & H) | (_ & Hroom & _)]]; [| |lia];
    destruct (process_read_outcome self read) as [o self'];
    cbn [fst snd] in *.
  - subst o self'. split; reflexivity.
  - injection H as -> ->. split; reflexivity.
Qed.

(** C5: in every state the pipeline reaches from a freshly built
    processor, whatever its producers and its worker do, the ingress queue
    holds at most its configured capacity and
    [reads_received >= reads_processed + drops], where [drops] counts the
    calls turned away for lack of room.  When the queue is full
    [process_read] returns false at once, without waiting for room, and
    the queue is as it was.  With a capacity of two and no consumer, of
    three reads the first two are queued and the third is turned away:
    three received, two queued, one dropped. *)
Theorem pipeline_capacity_and_counts
  (w th q bt : Q) (cap : Z) (p0 : ReadProcessor)
  (evs : list event) (read : Read) :
  (0 <= cap)%Z ->
  Processor.__init__ w th q cap bt = Ok p0 ->
  let p := run local (start_pipeline p0) evs in
  (Z.of_nat (length (_read_queue (processor p))) <= cap)%Z
  /\ reads_processed (_metrics (processor p)) + drops p
     <= reads_received (_metrics (processor p))
  /\ ((Z.of_nat (length (_read_queue (processor p))) < cap)%Z
      \/ (fst (process_read (processor p) read) = false
          /\ _read_queue (snd (process_read (processor p) read))
             = _read_queue (processor p)))
  /\ Processor.__init__ 5 3 0.7 2 1 = Ok (read_processor 2)
  /\ (let r1 := tag_read 1 0 (-50) in
      let r2 := tag_read 2 1 (-40) in
      let r3 := tag_read 3 2 (-30) in
      let s0 := start_pipeline (read_processor 2) in
      let s3 := run local s0 [Ingress r1; Ingress r2; Ingress r3] in
      fst (process_read (processor s0) r1) = true
      /\ fst (process_read (processor (run local s0 [Ingress r1])) r2) = true
      /\ fst (process_read
                (processor (run local s0 [Ingress r1; Ingress r2])) r3)
         = false
      /\ _read_queue (processor s3) = [r1; r2]
      /\ reads_received (_metrics (processor s3)) = 3
      /\ drops s3 = 1).
Proof.
  intros Hcap Hinit p.
  apply init_processor in Hinit as (Hmax & Hq & Hrecv & Hproc).
  assert (Hinv0 : pipeline_invariant (start_pipeline p0)).
  { unfold pipeline_invariant, start_pipeline. cbn [processor batch drops].
    rewrite Hq, Hmax, Hrecv, Hproc. simpl. split; lia. }
  pose proof (run_invariant evs _ Hinv0) as [Hqueue Hcount].
  fold p in Hqueue, Hcount.
  assert (Hm : maxsize (processor p) = cap).
  { unfold p. rewrite run_maxsize. exact Hmax. }
  rewrite Hm in Hqueue.
  split; [exact Hqueue|]. split; [lia|]. split.
  - destruct (Z_lt_le_dec (Z.of_nat (length (_read_queue (processor p)))) cap)
      as [Hroom | Hfull]; [left; exact Hroom|].
    right. apply process_read_full. rewrite Hm. exact Hfull.
  - split; [reflexivity|]. vm_compute. repeat split.
Qed.

End PipelineFacts.

Lemma pipeline_capacity_and_counts_witness :
  let evs := [Ingress (tag_read 1 0 (-50)); Ingress (tag_read 2 1 (-40));
              Ingress (tag_read 3 2 (-30)); Get; Get; ProcessBatch 3] in
  (0 <= 2)%Z /\ Processor.__init__ 5 3 0.7 2 1 = Ok (read_processor 2) /\
  let p := run 0 (start_pipeline (read_processor 2)) evs in
  (Z.of_nat (length (_read_queue (processor p))) <= 2)%Z
  /\ reads_processed (_metrics (processor p)) + drops p
     <= reads_received (_metrics (processor p)).
Proof.
  intros evs.
  assert (H1 : (0 <= 2)%Z) by lia.
  assert (H2 : Processor.__init__ 5 3 0.7 2 1 = Ok (read_processor 2))
    by reflexivity.
  split; [exact H1|]. split; [exact H2|].
  destruct (pipeline_capacity_and_counts 0 5 3 0.7 1 2 (read_processor 2) evs
              (tag_read 4 3 (-50)) H1 H2) as (Hq & Hc & _).
  split; [exact Hq | exact Hc].
Defined.





(** * Further properties of the code *)

Import Runs.

(** ** Tags and constructed reads *)

Lemma at_dollar_spec (rest : string) :
  at_dollar rest = true <->
  rest = EmptyString \/ rest = String LF EmptyString.
Proof.
  unfold at_dollar. destruct rest as [|c rest].
  - split; [auto | reflexivity].
  - destruct rest as [|c' rest'].
    + rewrite Nat.eqb_eq. split.
      * intros H. right. f_equal.
        rewrite <- (ascii_nat_embedding c), H. reflexivity.
      * intros [H | H]; [discriminate|].
        injection H as ->. reflexivity.
    + split; [discriminate|]. intros [H | H]; discriminate.
Qed.

Lemma match_hex_spec (n : nat) (s rest : string) :
  match_hex n s = Some rest <->
  exists h : list ascii,
    length h = n /\ Forall (fun c => is_hex c = true) h
    /\ s = String.append (string_of_chars h) rest.
Proof.
  revert s. induction n as [|n IH]; intros s; simpl.
  - split.
    + intros H. injection H as ->. exists []. repeat split. constructor.
    + intros (h & Hl & _ & ->). destruct h; [reflexivity | discriminate].
  - destruct s as [|c s].
    + split; [discriminate|].
      intros (h & Hl & _ & Hs). destruct h; discriminate.
    + destruct (is_hex c) eqn:Ec.
      * rewrite IH. split.
        -- intros (h & Hl & Hh & ->). exists (c :: h).
           split; [simpl; congruence|]. split; [constructor; assumption|].
           reflexivity.
        -- intros (h & Hl & Hh & Hs). destruct h as [|c' h]; [discriminate|].
           simpl in Hs. injection Hs as <- ->.
           exists h. split; [simpl in Hl; lia|].
           split; [inversion Hh; assumption | reflexivity].
      * split; [discriminate|].
        intros (h & Hl & Hh & Hs). destruct h as [|c' h]; [discriminate|].
        simpl in Hs. injection Hs as <- _.
        inversion Hh; congruence.
Qed.

Lemma string_of_chars_app (h k : list ascii) :
  string_of_chars (h ++ k)
  = String.append (string_of_chars h) (string_of_chars k).
Proof. induction h as [|c h IH]; simpl; [reflexivity | rewrite IH; reflexivity]. Qed.

Lemma append_empty_r (s : string) : String.append s EmptyString = s.
Proof.
  induction s as [|c s IH]; [reflexivity|].
  change (String c (String.append s EmptyString) = String c s).
  rewrite IH. reflexivity.
Qed.

(** X1: the tag pattern accepts the strings of exactly 24 hexadecimal
    digits, and those strings followed by one line feed, and no others. *)
Theorem tag_pattern_accepts (s : string) :
  _TAG_PATTERN_match s = true <->
  exists h : list ascii,
    length h = 24 /\ Forall (fun c => is_hex c = true) h
    /\ (s = string_of_chars h \/ s = string_of_chars (h ++ [LF])).
Proof.
  unfold _TAG_PATTERN_match. split.
  - destruct (match_hex 24 s) as [rest|] eqn:E; [|discriminate].
    intros Hd. apply match_hex_spec in E as (h & Hl & Hh & ->).
    exists h. split; [exact Hl|]. split; [exact Hh|].
    apply at_dollar_spec in Hd as [-> | ->].
    + left. apply append_empty_r.
    + right. rewrite string_of_chars_app. reflexivity.
  - intros (h & Hl & Hh & Hs).
    assert (E : exists rest, match_hex 24 s = Some rest /\ at_dollar rest = true).
    { destruct Hs as [-> | ->].
      - exists EmptyString. split; [|reflexivity].
        apply match_hex_spec. exists h. rewrite append_empty_r. auto.
      - exists (String LF EmptyString). split; [|reflexivity].
        apply match_hex_spec. exists h. rewrite string_of_chars_app. auto. }
    destruct E as (rest & -> & Hd). exact Hd.
Qed.

Lemma normalized_read_time_utc (t : datetime) :
  tzinfo_ne_utc (dt_tzinfo (normalized_read_time t)) = false.
Proof.
  unfold normalized_read_time.
  destruct (tzinfo_ne_utc (dt_tzinfo t)) eqn:E; [reflexivity | exact E].
Qed.

(** X2: a constructed [Read] holds its arguments as they were given (the
    tag is not put in one case, the reader id is not stripped) with
    [is_processed] false, and validating it once more changes nothing. *)
Theorem constructed_read_is_stable
  (id_ : N) (tag rid : string) (s : Q) (t : datetime) (r : Read) :
  new_Read id_ tag rid s t = Ok r ->
  uuid r = id_ /\ rfid_tag r = tag /\ reader_id r = rid
  /\ signal_strength r = s /\ is_processed r = false
  /\ ReadModel.__post_init__ r = Ok r.
Proof.
  intros Hnew.
  destruct (new_Read_cases id_ tag rid s t)
    as [(Ht & Hv & Hr & Hok) | (_ & msg & Hbad)]; [|congruence].
  rewrite Hok in Hnew. injection Hnew as <-. simpl.
  repeat split.
  unfold ReadModel.__post_init__. simpl. rewrite Ht. simpl.
  destruct (validate_signal_strength s) as [valid m]. simpl in Hv.
  subst valid. simpl. rewrite Hr. simpl.
  rewrite normalized_read_time_utc. reflexivity.
Qed.

Lemma constructed_read_is_stable_witness :
  let t := {| wall := 1000%Q; dt_tzinfo := None |} in
  let r := {| uuid := 7%N; rfid_tag := "e200123456789012345678ab";
              reader_id := " r1 "; signal_strength := (-50)%Q;
              read_time := utc_instant 1000; is_processed := false |} in
  new_Read 7%N "e200123456789012345678ab" " r1 " (-50)%Q t = Ok r /\
  rfid_tag r = "e200123456789012345678ab" /\ reader_id r = " r1 "
  /\ ReadModel.__post_init__ r = Ok r.
Proof.
  intros t r.
  assert (H : new_Read 7%N "e200123456789012345678ab" " r1 " (-50)%Q t = Ok r)
    by reflexivity.
  split; [exact H|].
  destruct (constructed_read_is_stable _ _ _ _ _ _ H)
    as (_ & Ht & Hr & _ & _ & Hp).
  split; [exact Ht|]. split; [exact Hr | exact Hp].
Defined.

(** ** More on the deduplicator *)


Lemma is_duplicate_config (local : Q) (d d' : ReadDeduplicator) (r e : Read) :
  time_window_seconds d' = time_window_seconds d ->
  signal_threshold_dbm d' = signal_threshold_dbm d ->
  _is_duplicate local d' r e = _is_duplicate local d r e.
Proof. intros Hw Ht. unfold _is_duplicate. rewrite Hw, Ht. reflexivity. Qed.

(** X4: the duplicate test is symmetric: whether [r] duplicates [e] does
    not depend on which of the two came first. *)
Theorem is_duplicate_symmetric
  (local : Q) (d : ReadDeduplicator) (r e : Read) :
  _is_duplicate local d r e = _is_duplicate local d e r.
Proof.
  unfold _is_duplicate.
  rewrite (Qabs_Qminus (read_timestamp local r) (read_timestamp local e)).
  rewrite (Qabs_Qminus (signal_strength r) (signal_strength e)).
  destruct (fst (validate_signal_strength (signal_strength r)));
    destruct (fst (validate_signal_strength (signal_strength e)));
    reflexivity.
Qed.

Lemma is_duplicate_self (local : Q) (d : ReadDeduplicator) (r : Read) :
  (0 <= time_window_seconds d)%Q -> (0 < signal_threshold_dbm d)%Q ->
  fst (validate_signal_strength (signal_strength r)) = true ->
  _is_duplicate local d r r = true.
Proof.
  intros Hw Ht Hv.
  rewrite (is_duplicate_in_range local d r r Hv Hv).
  assert (H0 : forall x : Q, (Qabs (x - x) == 0)%Q).
  { intros x. assert (Hx : (x - x == 0)%Q) by ring.
    rewrite (Qabs_wd _ _ Hx). reflexivity. }
  apply andb_true_iff. split.
  - apply negb_true_iff, Qltb_false. rewrite H0. exact Hw.
  - apply Qltb_true. rewrite H0. exact Ht.
Qed.

Section DedupRuns.
Variable local : Q.

Lemma process_loop_config (d : ReadDeduplicator) (reads : list Read) :
  time_window_seconds (fst (process_loop local d reads))
  = time_window_seconds d
  /\ signal_threshold_dbm (fst (process_loop local d reads))
     = signal_threshold_dbm d.
Proof.
  revert d. induction reads as [|r rest IH]; intros d; simpl; [auto|].
  destruct (_max_buffer_size d <=? _)%Z; [auto|].
  destruct (existsb _ _).
  - apply (IH (inc_dedup_counter d)).
  - specialize (IH (with_buffer d
      (<[rfid_tag r := default [] (_read_buffer d !! rfid_tag r) ++ [r]]>
         (_read_buffer d)))).
    destruct (process_loop local _ rest) as [d' out]. exact IH.
Qed.

Lemma buffered_insert (buf : gmap string (list Read)) (r x : Read) :
  buffered buf x ->
  buffered (<[rfid_tag r := default [] (buf !! rfid_tag r) ++ [r]]> buf) x.
Proof.
  intros (l & Hl & Hx). unfold buffered.
  destruct (decide (rfid_tag r = rfid_tag x)) as [Heq | Hne].
  - rewrite <- Heq, lookup_insert_eq. eexists. split; [reflexivity|].
    rewrite Heq, Hl. simpl. apply in_or_app. left. exact Hx.
  - rewrite lookup_insert_ne by exact Hne. exists l. auto.
Qed.

Lemma buffered_insert_new (buf : gmap string (list Read)) (r : Read) :
  buffered (<[rfid_tag r := default [] (buf !! rfid_tag r) ++ [r]]> buf) r.
Proof.
  unfold buffered. rewrite lookup_insert_eq. eexists. split; [reflexivity|].
  apply in_or_app. right. left. reflexivity.
Qed.

(** The loop only adds to the buffer. *)
Lemma process_loop_keeps (d : ReadDeduplicator) (reads : list Read) (x : Read) :
  buffered (_read_buffer d) x ->
  buffered (_read_buffer (fst (process_loop local d reads))) x.
Proof.
  revert d. induction reads as [|r rest IH]; intros d Hx; simpl; [exact Hx|].
  destruct (_max_buffer_size d <=? _)%Z; [exact Hx|].
  destruct (existsb _ _).
  - apply (IH (inc_dedup_counter d)). exact Hx.
  - set (d1 := with_buffer d _).
    assert (H1 : buffered (_read_buffer d1) x)
      by (apply buffered_insert; exact Hx).
    specialize (IH d1 H1).
    destruct (process_loop local d1 rest) as [d' out]. exact IH.
Qed.

(** A read that is buffered and duplicates itself is not emitted. *)
Lemma buffered_not_emitted (d : ReadDeduplicator) (reads : list Read)
  (x : Read) :
  buffered (_read_buffer d) x ->
  _is_duplicate local d x x = true ->
  ~ In x (snd (process_loop local d reads)).
Proof.
  revert d. induction reads as [|r rest IH]; intros d Hx Hdup; simpl; [tauto|].
  destruct (_max_buffer_size d <=? _)%Z; [simpl; tauto|].
  destruct (existsb (_is_duplicate local d r)
              (default [] (_read_buffer d !! rfid_tag r))) eqn:Ex.
  - apply (IH (inc_dedup_counter d)); [exact Hx|].
    rewrite <- Hdup. apply is_duplicate_config; reflexivity.
  - set (d1 := with_buffer d _).
    assert (H1 : buffered (_read_buffer d1) x)
      by (apply buffered_insert; exact Hx).
    assert (H2 : _is_duplicate local d1 x x = true).
    { rewrite <- Hdup. apply is_duplicate_config; reflexivity. }
    specialize (IH d1 H1 H2).
    destruct (process_loop local d1 rest) as [d' out]. simpl in *.
    intros [-> | Hin]; [|exact (IH Hin)].
    (* the read at hand is [x] itself, which its bucket holds *)
    destruct Hx as (l & Hl & Hxl). rewrite Hl in Ex. simpl in Ex.
    assert (Htrue : existsb (_is_duplicate local d x) l = true).
    { apply existsb_exists. exists x. split; [exact Hxl | exact Hdup]. }
    congruence.
Qed.

Lemma process_loop_emits_once (d : ReadDeduplicator) (reads : list Read) :
  (0 <= time_window_seconds d)%Q -> (0 < signal_threshold_dbm d)%Q ->
  Forall (fun r => fst (validate_signal_strength (signal_strength r)) = true)
    reads ->
  NoDup (snd (process_loop local d reads)).
Proof.
  intros Hw Ht Hall. revert d Hw Ht.
  induction Hall as [|r rest Hr _ IH]; intros d Hw Ht; simpl.
  - constructor.
  - destruct (_max_buffer_size d <=? _)%Z; [constructor|].
    destruct (existsb _ _).
    + apply (IH (inc_dedup_counter d)); assumption.
    + set (d1 := with_buffer d _).
      pose proof (buffered_not_emitted d1 rest r) as Hnot.
      specialize (IH d1 Hw Ht).
      destruct (process_loop local d1 rest) as [d' out]. simpl in *.
      apply NoDup_cons_2; [|exact IH].
      rewrite list_elem_of_In. apply Hnot.
      * apply buffered_insert_new.
      * apply is_duplicate_self; assumption.
Qed.

Lemma process_loop_buffers_emitted (d : ReadDeduplicator)
  (reads : list Read) (x : Read) :
  In x (snd (process_loop local d reads)) ->
  buffered (_read_buffer (fst (process_loop local d reads))) x.
Proof.
  revert d. induction reads as [|r rest IH]; intros d; simpl; [tauto|].
  destruct (_max_buffer_size d <=? _)%Z; [simpl; tauto|].
  destruct (existsb _ _).
  - apply (IH (inc_dedup_counter d)).
  - set (d1 := with_buffer d _).
    pose proof (process_loop_keeps d1 rest x) as Hkeep.
    specialize (IH d1).
    destruct (process_loop local d1 rest) as [d' out]. simpl in *.
    intros [<- | Hin]; [|exact (IH Hin)].
    apply Hkeep. apply buffered_insert_new.
Qed.

(** X5: in one batch of reads with in-range signals, a deduplicator with
    a positive signal threshold never emits the same read twice. *)
Theorem process_reads_emits_once
  (now : Q) (d : ReadDeduplicator) (reads : list Read) :
  (0 <= time_window_seconds d)%Q ->
  (0 < signal_threshold_dbm d)%Q ->
  Forall (fun r => (-70 <= signal_strength r /\ signal_strength r <= -20)%Q)
    reads ->
  NoDup (snd (process_reads local now d reads)).
Proof.
  intros Hw Ht Hall. unfold process_reads.
  destruct reads as [|r rest]; [constructor|].
  assert (Hv : Forall
    (fun r => fst (validate_signal_strength (signal_strength r)) = true)
    (r :: rest)).
  { revert Hall. apply List.Forall_impl. intros x Hx.
    apply validate_signal_strength_true. exact Hx. }
  pose proof (process_loop_emits_once (_clean_buffer local now d) (r :: rest)
                Hw Ht Hv) as H.
  destruct (process_loop local _ (r :: rest)) as [d' out]. exact H.
Qed.

(** X6: every read that [process_reads] emits is stored in the buffer, in
    the bucket of its tag, when the call returns. *)
Theorem process_reads_buffers_emitted
  (now : Q) (d : ReadDeduplicator) (reads : list Read) (x : Read) :
  In x (snd (process_reads local now d reads)) ->
  buffered (_read_buffer (fst (process_reads local now d reads))) x.
Proof.
  unfold process_reads. destruct reads as [|r rest]; [simpl; tauto|].
  pose proof (process_loop_buffers_emitted (_clean_buffer local now d)
                (r :: rest) x) as H.
  destruct (process_loop local _ (r :: rest)) as [d' out]. exact H.
Qed.

End DedupRuns.

Lemma process_reads_emits_once_witness :
  let d := deduplicator 5 3 10000 in
  let reads := [tag_read 1 0 (-50); tag_read 1 0 (-50); tag_read 2 1 (-40)] in
  (0 <= time_window_seconds d)%Q /\ (0 < signal_threshold_dbm d)%Q /\
  Forall (fun r => (-70 <= signal_strength r /\ signal_strength r <= -20)%Q)
    reads /\
  NoDup (snd (process_reads 0 0 d reads)).
Proof.
  intros d reads.
  assert (H1 : (0 <= time_window_seconds d)%Q) by q_compare.
  assert (H2 : (0 < signal_threshold_dbm d)%Q) by q_compare.
  assert (H3 : Forall
    (fun r => (-70 <= signal_strength r /\ signal_strength r <= -20)%Q) reads).
  { repeat constructor; q_compare. }
  split; [exact H1|]. split; [exact H2|]. split; [exact H3|].
  exact (process_reads_emits_once 0 0 d reads H1 H2 H3).
Defined.

Lemma process_reads_buffers_emitted_witness :
  let d := deduplicator 5 3 10000 in
  let reads := [tag_read 1 0 (-50); tag_read 2 1 (-40)] in
  In (tag_read 2 1 (-40)) (snd (process_reads 0 0 d reads)) /\
  buffered (_read_buffer (fst (process_reads 0 0 d reads)))
    (tag_read 2 1 (-40)).
Proof.
  intros d reads.
  assert (H : In (tag_read 2 1 (-40)) (snd (process_reads 0 0 d reads))).
  { vm_compute. right. left. reflexivity. }
  split; [exact H|].
  exact (process_reads_buffers_emitted 0 0 d reads _ H).
Defined.

Lemma process_loop_accounts (local : Q) (d : ReadDeduplicator)
  (reads : list Read) :
  let d' := fst (process_loop local d reads) in
  let out := snd (process_loop local d reads) in
  buffer_total (_read_buffer d') = buffer_total (_read_buffer d) + length out
  /\ _dedup_counter d' + length out <= _dedup_counter d + length reads
  /\ ((_max_buffer_size d <= Z.of_nat (buffer_total (_read_buffer d')))%Z
      \/ _dedup_counter d' + length out = _dedup_counter d + length reads).
Proof.
  revert d. induction reads as [|r rest IH]; intros d; simpl.
  - split; [lia|]. split; [lia|]. right. lia.
  - destruct (_max_buffer_size d <=? Z.of_nat (buffer_total (_read_buffer d)))%Z
      eqn:Efull; simpl.
    + apply Z.leb_le in Efull. split; [lia|]. split; [lia|]. left. exact Efull.
    + destruct (existsb _ _).
      * destruct (IH (inc_dedup_counter d)) as (H1 & H2 & H3). simpl in *.
        split; [lia|]. split; [lia|].
        destruct H3 as [H3 | H3]; [left | right]; lia.
      * set (d1 := with_buffer d _).
        assert (Ht : buffer_total (_read_buffer d1)
                     = S (buffer_total (_read_buffer d)))
          by (apply buffer_total_append).
        destruct (IH d1) as (H1 & H2 & H3).
        destruct (process_loop local d1 rest) as [d' out]. simpl in *.
        split; [lia|]. split; [lia|].
        destruct H3 as [H3 | H3]; [left | right]; lia.
Qed.

(** X7: the books of one [process_reads] call.  The buffer ends up
    holding at least the reads emitted and at most what it held before
    plus the reads emitted; the duplicate counter and the emitted reads
    together never exceed the batch; and unless the buffer has reached
    its cap, every read of the batch was either emitted or counted as a
    duplicate. *)
Theorem process_reads_accounts
  (local now : Q) (d : ReadDeduplicator) (reads : list Read) :
  let d' := fst (process_reads local now d reads) in
  let out := snd (process_reads local now d reads) in
  length out <= buffer_total (_read_buffer d')
  /\ buffer_total (_read_buffer d')
     <= buffer_total (_read_buffer d) + length out
  /\ _dedup_counter d' + length out <= _dedup_counter d + length reads
  /\ ((_max_buffer_size d <= Z.of_nat (buffer_total (_read_buffer d')))%Z
      \/ _dedup_counter d' + length out = _dedup_counter d + length reads).
Proof.
  unfold process_reads. destruct reads as [|r rest].
  { simpl. split; [lia|]. split; [lia|]. split; [lia|]. right. lia. }
  pose proof (process_loop_accounts local (_clean_buffer local now d)
                (r :: rest)) as (H1 & H2 & H3).
  pose proof (buffer_total_clean local (now - time_window_seconds d)%Q
                (_read_buffer d)) as Hc.
  destruct (process_loop local _ (r :: rest)) as [d' out].
  cbn [fst snd] in *. unfold _clean_buffer in *. simpl in *.
  split; [lia|]. split; [lia|]. split; [lia|].
  destruct H3 as [H3 | H3]; [left | right]; lia.
Qed.



(** ** More on the quality filter *)

(** X10: the constructor of the filter accepts exactly thresholds in
    [0, 1] and a batch size of at least one, and otherwise raises a
    [ValueError]; the cache it builds is empty, or absent when caching is
    disabled. *)
Theorem filter_init_iff (quality confidence : Q) (size : Z) (caching : bool) :
  (is_ok (Filter.__init__ quality confidence size caching) = true <->
   (0 <= quality /\ quality <= 1)%Q /\ (0 <= confidence /\ confidence <= 1)%Q
   /\ (1 <= size)%Z)
  /\ is_value_error (Filter.__init__ quality confidence size caching)
     = negb (is_ok (Filter.__init__ quality confidence size caching))
  /\ (is_ok (Filter.__init__ quality confidence size caching) = false
      \/ Filter.__init__ quality confidence size caching
         = Ok {| quality_threshold := quality;
                 confidence_threshold := confidence;
                 batch_size := size;
                 validation_cache := if caching then Some ∅ else None |}).
Proof.
  unfold Filter.__init__.
  destruct (Qleb 0 quality && Qleb quality 1) eqn:Eq; simpl.
  2:{ split; [|auto]. split; [discriminate|].
      intros ([H1 H2] & _). apply Qleb_true in H1. apply Qleb_true in H2.
      rewrite H1, H2 in Eq. discriminate. }
  apply andb_true_iff in Eq as [Eq1 Eq2].
  apply Qleb_true in Eq1. apply Qleb_true in Eq2.
  destruct (Qleb 0 confidence && Qleb confidence 1) eqn:Ec; simpl.
  2:{ split; [|auto]. split; [discriminate|].
      intros (_ & [H1 H2] & _). apply Qleb_true in H1. apply Qleb_true in H2.
      rewrite H1, H2 in Ec. discriminate. }
  apply andb_true_iff in Ec as [Ec1 Ec2].
  apply Qleb_true in Ec1. apply Qleb_true in Ec2.
  destruct (size <? 1)%Z eqn:Es; simpl.
  { apply Z.ltb_lt in Es. split; [|auto]. split; [discriminate|].
    intros (_ & _ & H). lia. }
  apply Z.ltb_ge in Es. split; [|auto]. split; auto.
Qed.









(** ** More on the [Reader] aggregate *)

(** X15: [update_status] never accepts the status the reader already has;
    it puts a reader ONLINE only from OFFLINE, and records ERROR only for
    a reader that is ONLINE.  A refused call raises a [ValueError] and
    leaves the reader as it was. *)
Theorem update_status_gates (now : Q) (r : Reader) (reason : string) :
  (is_value_error (fst (update_status now r (status r) reason)) = true
   /\ snd (update_status now r (status r) reason) = r)
  /\ (is_ok (fst (update_status now r ONLINE reason)) = true <->
      status r = OFFLINE)
  /\ (is_ok (fst (update_status now r ERROR reason)) = true <->
      status r = ONLINE).
Proof.
  unfold update_status. rewrite !transition_allowed_matrix.
  split; [|split].
  - destruct (status r); simpl; split; reflexivity.
  - destruct (status r); simpl; split; congruence.
  - destruct (status r); simpl; split; congruence.
Qed.

(** One call either leaves the reader alone or appends one entry. *)
Lemma update_status_step (now : Q) (r : Reader) (ns : ReaderStatus)
  (reason : string) :
  snd (update_status now r ns reason) = r
  \/ exists entry : gmap string value,
       status_history (snd (update_status now r ns reason))
       = status_history r ++ [entry]
       /\ entry !! "new_status" = Some (VStatus ns)
       /\ error_count (health_metrics (snd (update_status now r ns reason)))
          = error_count (health_metrics r)
            + (if ReaderStatus_eqb ns ERROR then 1 else 0)
       /\ status (snd (update_status now r ns reason)) = ns.
Proof.
  unfold update_status.
  destruct (transition_allowed (status r) ns); simpl; [|left; reflexivity].
  right. eexists. split; [reflexivity|]. split; [reflexivity|].
  split; [|reflexivity].
  destruct (ReaderStatus_eqb ns ERROR); simpl; lia.
Qed.

Lemma is_error_entry_status (entry : gmap string value) (ns : ReaderStatus) :
  entry !! "new_status" = Some (VStatus ns) ->
  is_error_entry entry = ReaderStatus_eqb ns ERROR.
Proof. intros H. unfold is_error_entry. rewrite H. reflexivity. Qed.

(** The entries a series of calls appends. *)
Lemma apply_updates_history
  (r : Reader) (calls : list (Q * ReaderStatus * string)) :
  exists added : list (gmap string value),
    status_history (apply_updates r calls) = status_history r ++ added
    /\ length added <= length calls
    /\ Forall (fun e => exists s, e !! "new_status" = Some (VStatus s)) added
    /\ error_count (health_metrics (apply_updates r calls))
       = error_count (health_metrics r)
         + length (List.filter is_error_entry added).
Proof.
  revert r. induction calls as [|[[now ns] reason] rest IH]; intros r; simpl.
  - exists []. rewrite app_nil_r. split; [reflexivity|].
    split; [simpl; lia|]. split; [constructor | simpl; lia].
  - destruct (IH (snd (update_status now r ns reason)))
      as (added & Hh & Hl & Hk & He).
    destruct (update_status_step now r ns reason)
      as [Hsame | (entry & Hentry & Hns & Hec & _)].
    + rewrite Hsame in *. exists added.
      split; [exact Hh|]. split; [lia|]. split; [exact Hk | exact He].
    + exists (entry :: added). rewrite Hh, Hentry, <- app_assoc.
      split; [reflexivity|]. split; [simpl; lia|].
      split; [constructor; eauto|].
      rewrite He, Hec. simpl.
      rewrite (is_error_entry_status entry ns Hns).
      destruct (ReaderStatus_eqb ns ERROR); simpl; lia.
Qed.

(** X16: through any series of [update_status] calls the history only
    grows at its end, by at most one entry per call; every entry beyond
    the old history carries a [new_status]; and [error_count] grows by the
    number of those entries that record a change into ERROR. *)
Theorem status_history_is_append_only
  (r : Reader) (calls : list (Q * ReaderStatus * string)) :
  let h := status_history r in
  let h' := status_history (apply_updates r calls) in
  h `prefix_of` h'
  /\ length h <= length h' <= length h + length calls
  /\ Forall (fun e => exists s, e !! "new_status" = Some (VStatus s))
       (drop (length h) h')
  /\ error_count (health_metrics (apply_updates r calls))
     = error_count (health_metrics r)
       + length (List.filter is_error_entry (drop (length h) h')).
Proof.
  intros h h'.
  destruct (apply_updates_history r calls) as (added & Hh & Hl & Hk & He).
  fold h h' in Hh. rewrite Hh, drop_app_length.
  split; [exists added; reflexivity|].
  split; [rewrite length_app; lia|].
  split; [exact Hk | exact He].
Qed.

(** The newest entry is looked at first. *)
Lemma newest_error_found (h : list (gmap string value))
  (entry : gmap string value) :
  entry !! "new_status" = Some (VStatus ERROR) ->
  match h ++ [entry] with
  | [] => Ok None
  | _ => next_error_entry (rev (h ++ [entry]))
  end = Ok (Some entry).
Proof.
  intros He. destruct (h ++ [entry]) as [|e0 l] eqn:Eh.
  { apply app_eq_nil in Eh as [_ Eh]. discriminate. }
  rewrite <- Eh, rev_app_distr. simpl. rewrite He. reflexivity.
Qed.

(** X18: recording an error and then asking for the health.  After
    [update_status(ERROR, reason)] at instant [t] on an ONLINE reader,
    whatever its history, [is_healthy] returns: the reader is not online,
    [last_error] is the entry just written, the error count is one more,
    and the heartbeat is sound exactly for the next 60 seconds. *)
Theorem health_after_error (t now : Q) (r : Reader) (reason : string) :
  status r = ONLINE ->
  exists (h : HealthStatus) (entry : gmap string value),
    is_healthy now (snd (update_status t r ERROR reason)) = Ok h
    /\ last_error h = Some entry
    /\ entry !! "reason" = Some (VStr reason)
    /\ entry !! "timestamp" = Some (VTime t)
    /\ entry !! "old_status" = Some (VStatus ONLINE)
    /\ is_online h = false
    /\ hs_status h = "ERROR"
    /\ error_count (metrics h) = S (error_count (health_metrics r))
    /\ (heartbeat_ok h = true <-> (now - t <= 60)%Q).
Proof.
  intros Hs.
  assert (Ha : transition_allowed (status r) ERROR = true)
    by (rewrite Hs; reflexivity).
  unfold update_status. rewrite Ha, Hs. cbn [negb snd ReaderStatus_eqb].
  unfold is_healthy.
  cbn [status_history last_heartbeat health_metrics status power_level].
  rewrite newest_error_found by reflexivity.
  destruct (get_dbm_range (power_level r)) as [lo hi].
  destruct (validate_signal_strength _) as [valid m].
  eexists. eexists. split; [reflexivity|].
  cbn [last_error is_online hs_status metrics heartbeat_ok].
  split; [reflexivity|]. split; [reflexivity|]. split; [reflexivity|].
  split; [reflexivity|]. split; [reflexivity|]. split; [reflexivity|].
  split; [reflexivity|]. apply Qleb_true.
Qed.

Lemma health_after_error_witness :
  exists r0 : Reader,
    new_Reader 1%N 0%Q "Dock" "10.0.0.7" = Ok r0 /\
    let r := snd (update_status 1%Q r0 ONLINE "Connected successfully") in
    status r = ONLINE /\
    exists (h : HealthStatus) (entry : gmap string value),
      is_healthy 30%Q (snd (update_status 2%Q r ERROR "Lost")) = Ok h
      /\ last_error h = Some entry
      /\ entry !! "reason" = Some (VStr "Lost").
Proof.
  eexists. split; [reflexivity|]. intros r.
  assert (H : status r = ONLINE) by reflexivity.
  split; [exact H|].
  destruct (health_after_error 2%Q 30%Q r "Lost" H)
    as (h & entry & H1 & H2 & H3 & _).
  exists h, entry. auto.
Defined.

(** X19: the constructor of [Reader] accepts exactly an address that
    matches the address pattern, a port in 1..65535 and a read interval of
    at least 100 ms.  It then appends one entry to the history, holding
    the reader's status under the key [status] and nothing under
    [new_status]; otherwise it raises a [ValueError]. *)
Theorem reader_post_init_iff (now : Q) (r : Reader) :
  (is_ok (ReaderModel.__post_init__ now r) = true <->
   IP_ADDRESS_PATTERN_match (ip_address r) = true
   /\ (1 <= port r <= 65535)%Z /\ (100 <= read_interval_ms r)%Z)
  /\ is_value_error (ReaderModel.__post_init__ now r)
     = negb (is_ok (ReaderModel.__post_init__ now r))
  /\ (is_ok (ReaderModel.__post_init__ now r) = false
      \/ exists entry : gmap string value,
           ReaderModel.__post_init__ now r
           = Ok (with_history r (status_history r ++ [entry]))
           /\ entry !! "status" = Some (VStatus (status r))
           /\ entry !! "reason" = Some (VStr "Initial configuration")
           /\ entry !! "new_status" = None).
Proof.
  unfold ReaderModel.__post_init__.
  destruct (IP_ADDRESS_PATTERN_match (ip_address r)); simpl.
  2:{ split; [|auto]. split; [discriminate | intros (H & _); discriminate]. }
  destruct ((1 <=? port r)%Z && (port r <=? 65535)%Z) eqn:Ep; simpl.
  2:{ split; [|auto]. split; [discriminate|]. intros (_ & [H1 H2] & _).
      apply Z.leb_le in H1. apply Z.leb_le in H2.
      rewrite H1, H2 in Ep. discriminate. }
  apply andb_true_iff in Ep as [Ep1 Ep2].
  apply Z.leb_le in Ep1. apply Z.leb_le in Ep2.
  destruct (read_interval_ms r <? 100)%Z eqn:Ei; simpl.
  { apply Z.ltb_lt in Ei. split; [|auto]. split; [discriminate|].
    intros (_ & _ & H). lia. }
  apply Z.ltb_ge in Ei. split; [|split; [reflexivity|]].
  - split; auto.
  - right. eexists. split; [reflexivity|]. repeat split; reflexivity.
Qed.

Lemma scan_history (init : gmap string value)
  (added : list (gmap string value)) :
  init !! "new_status" = None ->
  Forall (fun e => exists s, e !! "new_status" = Some (VStatus s)) added ->
  (List.filter is_error_entry added = []
   /\ next_error_entry (rev (init :: added)) = Raise (KeyError "new_status"))
  \/ (exists e, In e added /\ e !! "new_status" = Some (VStatus ERROR)
                /\ next_error_entry (rev (init :: added)) = Ok (Some e)).
Proof.
  intros Hinit. induction added as [|x added IH] using rev_ind; intros Hall.
  - left. split; [reflexivity|]. simpl. rewrite Hinit. reflexivity.
  - apply Forall_app in Hall as [Hall Hx].
    inversion Hx as [|? ? [s Hs] _]; subst.
    assert (Hrev : rev (init :: added ++ [x]) = x :: rev (init :: added)).
    { simpl. rewrite rev_app_distr. reflexivity. }
    rewrite Hrev. cbn [next_error_entry]. rewrite Hs.
    destruct s; cbn [value_is_status ReaderStatus_eqb];
      try (destruct (IH Hall) as [[Hf Hn] | (e & He & Hes & Hn)];
           [left; split;
            [rewrite List.filter_app, Hf; simpl;
             rewrite (is_error_entry_status x _ Hs); reflexivity
            | exact Hn]
           | right; exists e; split; [apply in_or_app; left; exact He|];
             split; [exact Hes | exact Hn]]).
    right. exists x. split; [apply in_or_app; right; left; reflexivity|].
    split; [exact Hs | reflexivity].
Qed.

(** A reader as the constructor leaves it. *)
Lemma new_Reader_history (id_ : N) (created : Q) (nm ip : string)
  (r0 : Reader) :
  new_Reader id_ created nm ip = Ok r0 ->
  exists init : gmap string value,
    status_history r0 = [init] /\ init !! "new_status" = None
    /\ error_count (health_metrics r0) = 0.
Proof.
  unfold new_Reader, ReaderModel.__post_init__. simpl.
  destruct (IP_ADDRESS_PATTERN_match ip); simpl; [|discriminate].
  intros H. injection H as <-. simpl.
  eexists. split; [reflexivity|]. split; reflexivity.
Qed.

(** X17: for a reader built by [Reader(name=.., ip_address=..)] and then
    taken through any series of [update_status] calls, [is_healthy]
    raises [KeyError('new_status')] as long as no change into ERROR has
    been recorded ([error_count] is 0); once one has, it returns, with a
    recorded change into ERROR as [last_error]. *)
Theorem is_healthy_needs_a_recorded_error
  (id_ : N) (created now : Q) (nm ip : string) (r0 : Reader)
  (calls : list (Q * ReaderStatus * string)) :
  new_Reader id_ created nm ip = Ok r0 ->
  let r := apply_updates r0 calls in
  (error_count (health_metrics r) = 0
   /\ is_healthy now r = Raise (KeyError "new_status"))
  \/ (0 < error_count (health_metrics r)
      /\ exists (h : HealthStatus) (e : gmap string value),
           is_healthy now r = Ok h /\ last_error h = Some e
           /\ In e (status_history r)
           /\ e !! "new_status" = Some (VStatus ERROR)).
Proof.
  intros Hnew r.
  destruct (new_Reader_history id_ created nm ip r0 Hnew)
    as (init & Hh0 & Hinit & Hec0).
  subst r.
  match goal with
  | |- context [apply_updates ?x calls] =>
      destruct (apply_updates_history x calls)
        as (added & Hh & _ & Hall & Hec);
      set (r := apply_updates x calls) in *
  end.
  rewrite Hh0 in Hh. rewrite Hec0 in Hec. simpl in Hh, Hec.
  unfold is_healthy. rewrite Hh.
  change (match init :: added with
          | [] => Ok None
          | _ => next_error_entry (rev (init :: added))
          end) with (next_error_entry (rev (init :: added))).
  destruct (scan_history init added Hinit Hall)
    as [[Hf Hn] | (e & He & Hes & Hn)]; rewrite Hn.
  - left. rewrite Hec, Hf. split; reflexivity.
  - right. split.
    + rewrite Hec.
      assert (Hin : In e (List.filter is_error_entry added)).
      { apply List.filter_In. split; [exact He|].
        rewrite (is_error_entry_status e ERROR Hes). reflexivity. }
      destruct (List.filter is_error_entry added); [destruct Hin | simpl; lia].
    + destruct (get_dbm_range (power_level r)) as [lo hi].
      destruct (validate_signal_strength _) as [valid m].
      eexists. exists e. split; [reflexivity|]. split; [reflexivity|].
      split; [right; exact He | exact Hes].
Qed.

Lemma is_healthy_needs_a_recorded_error_witness :
  let calls := [(1%Q, ONLINE, "Connected successfully");
                (2%Q, MAINTENANCE, "Firmware")] in
  exists r0 : Reader,
    new_Reader 1%N 0%Q "Dock" "10.0.0.7" = Ok r0 /\
    error_count (health_metrics (apply_updates r0 calls)) = 0 /\
    is_healthy 3%Q (apply_updates r0 calls) = Raise (KeyError "new_status").
Proof.
  intros calls. eexists. split; [reflexivity|].
  match goal with
  | |- error_count (health_metrics (apply_updates ?r0 _)) = 0 /\ _ =>
      assert (H : new_Reader 1%N 0%Q "Dock" "10.0.0.7" = Ok r0)
        by reflexivity;
      destruct (is_healthy_needs_a_recorded_error 1%N 0%Q 3%Q "Dock"
                  "10.0.0.7" r0 calls H) as [[H1 H2] | [H1 _]]
  end.
  - split; [exact H1 | exact H2].
  - vm_compute in H1. lia.
Defined.

(** *** The address pattern *)

Lemma append_cons (c : ascii) (s t : string) :
  String.append (String c s) t = String c (String.append s t).
Proof. reflexivity. Qed.

Lemma take_digits_sound (n : nat) (s rest : string) (k : nat) :
  take_digits n s = (k, rest) ->
  exists g : list ascii,
    length g = k /\ k <= n /\ Forall (fun c => is_digit c = true) g
    /\ s = String.append (string_of_chars g) rest
    /\ (k = n \/ no_digit_ahead rest).
Proof.
  revert s rest k. induction n as [|n IH]; intros s rest k; simpl.
  - intros H. injection H as <- <-. exists [].
    repeat split; [lia | constructor | left; reflexivity].
  - destruct s as [|c s].
    + intros H. injection H as <- <-. exists [].
      repeat split; [lia | constructor | right; exact I].
    + destruct (is_digit c) eqn:Ec.
      * destruct (take_digits n s) as [k' rest'] eqn:Et.
        intros H. injection H as <- <-.
        destruct (IH s rest' k' Et) as (g & Hl & Hk & Hg & Hs & Hend).
        exists (c :: g). split; [simpl; lia|]. split; [lia|].
        split; [constructor; assumption|].
        split; [simpl; rewrite append_cons, <- Hs; reflexivity|].
        destruct Hend as [-> | Hend]; [left; reflexivity | right; exact Hend].
      * intros H. injection H as <- <-. exists [].
        repeat split; [lia | constructor | right; exact Ec].
Qed.

Lemma take_digits_complete (n : nat) (g : list ascii) (rest : string) :
  length g <= n -> Forall (fun c => is_digit c = true) g ->
  length g = n \/ no_digit_ahead rest ->
  take_digits n (String.append (string_of_chars g) rest) = (length g, rest).
Proof.
  revert g. induction n as [|n IH]; intros g Hl Hg Hend.
  - destruct g; [reflexivity | simpl in Hl; lia].
  - destruct g as [|c g].
    + change (take_digits (S n) rest = (0, rest)).
      destruct Hend as [Hend | Hend]; [simpl in Hend; lia|].
      destruct rest as [|c rest]; [reflexivity|].
      simpl in Hend. cbn [take_digits]. rewrite Hend. reflexivity.
    + inversion Hg as [|? ? Hc Hg']; subst.
      simpl string_of_chars. rewrite append_cons.
      cbn [take_digits]. rewrite Hc.
      rewrite (IH g); [reflexivity | simpl in Hl; lia | exact Hg'|].
      destruct Hend as [Hend | Hend]; [left; simpl in Hend; lia | right; exact Hend].
Qed.

Lemma match_octet_spec (s rest : string) :
  match_octet s = Some rest <->
  exists g : list ascii,
    digit_group g /\ s = String.append (string_of_chars g) rest
    /\ (length g = 3 \/ no_digit_ahead rest).
Proof.
  unfold match_octet, digit_group. split.
  - destruct (take_digits 3 s) as [k r] eqn:Et.
    destruct (k =? 0) eqn:Ek; [discriminate|].
    apply Nat.eqb_neq in Ek. intros H. injection H as ->.
    destruct (take_digits_sound 3 s rest k Et) as (g & Hl & Hk & Hg & Hs & He).
    exists g. split; [split; [lia | exact Hg]|]. split; [exact Hs|].
    destruct He as [-> | He]; [left; exact Hl | right; exact He].
  - intros (g & [Hl Hg] & -> & He).
    rewrite (take_digits_complete 3 g rest); [|lia | exact Hg | exact He].
    destruct (length g =? 0) eqn:Ek; [apply Nat.eqb_eq in Ek; lia|].
    reflexivity.
Qed.

Lemma dot_is_46 (c : ascii) : (nat_of_ascii c =? 46) = true <-> c = DOT.
Proof.
  rewrite Nat.eqb_eq. split.
  - intros H. rewrite <- (ascii_nat_embedding c), H. reflexivity.
  - intros ->. reflexivity.
Qed.

Lemma match_octet_dot_spec (s rest : string) :
  match_octet_dot s = Some rest <->
  exists g : list ascii,
    digit_group g
    /\ s = String.append (string_of_chars g) (String DOT rest).
Proof.
  unfold match_octet_dot. split.
  - destruct (match_octet s) as [[|c r]|] eqn:Em; try discriminate.
    destruct (nat_of_ascii c =? 46) eqn:Ec; [|discriminate].
    apply dot_is_46 in Ec as ->. intros H. injection H as ->.
    apply match_octet_spec in Em as (g & Hg & Hs & _).
    exists g. auto.
  - intros (g & Hg & ->).
    assert (Hm : match_octet (String.append (string_of_chars g)
                                (String DOT rest))
                 = Some (String DOT rest)).
    { apply match_octet_spec. exists g. split; [exact Hg|].
      split; [reflexivity|]. right. reflexivity. }
    rewrite Hm. reflexivity.
Qed.

Lemma string_of_chars_cons_app (g : list ascii) (c : ascii) (k : list ascii) :
  string_of_chars (g ++ c :: k)
  = String.append (string_of_chars g) (String c (string_of_chars k)).
Proof. rewrite string_of_chars_app. reflexivity. Qed.

(** X20: the address pattern accepts exactly four groups of one to three
    decimal digits separated by full stops, optionally followed by one
    line feed.  The groups are not bounded by 255. *)
Theorem ip_pattern_accepts (s : string) :
  IP_ADDRESS_PATTERN_match s = true <->
  exists a b c d tail : list ascii,
    digit_group a /\ digit_group b /\ digit_group c /\ digit_group d
    /\ (tail = [] \/ tail = [LF])
    /\ s = dotted a b c d tail.
Proof.
  unfold IP_ADDRESS_PATTERN_match, dotted. split.
  - destruct (match_octet_dot s) as [s1|] eqn:E1; [|discriminate].
    destruct (match_octet_dot s1) as [s2|] eqn:E2; [|discriminate].
    destruct (match_octet_dot s2) as [s3|] eqn:E3; [|discriminate].
    destruct (match_octet s3) as [rest|] eqn:E4; [|discriminate].
    intros Hd.
    apply match_octet_dot_spec in E1 as (a & Ha & ->).
    apply match_octet_dot_spec in E2 as (b & Hb & ->).
    apply match_octet_dot_spec in E3 as (c & Hc & ->).
    apply match_octet_spec in E4 as (d & Hd4 & -> & _).
    apply at_dollar_spec in Hd.
    exists a, b, c, d, (if decide (rest = EmptyString) then [] else [LF]).
    split; [exact Ha|]. split; [exact Hb|]. split; [exact Hc|].
    split; [exact Hd4|].
    split; [destruct (decide _); auto|].
    rewrite !string_of_chars_cons_app, string_of_chars_app.
    destruct Hd as [-> | ->]; reflexivity.
  - intros (a & b & c & d & tail & Ha & Hb & Hc & Hd & Ht & ->).
    rewrite !string_of_chars_cons_app, string_of_chars_app.
    assert (E1 : forall g rest, digit_group g ->
      match_octet_dot (String.append (string_of_chars g) (String DOT rest))
      = Some rest).
    { intros g rest Hg. apply match_octet_dot_spec. exists g. auto. }
    rewrite (E1 a _ Ha), (E1 b _ Hb), (E1 c _ Hc).
    assert (E4 : match_octet (String.append (string_of_chars d)
                                (string_of_chars tail))
                 = Some (string_of_chars tail)).
    { apply match_octet_spec. exists d. split; [exact Hd|].
      split; [reflexivity|]. right. destruct Ht as [-> | ->]; reflexivity. }
    rewrite E4. destruct Ht as [-> | ->]; reflexivity.
Qed.

(** ** More on the pipeline *)



Section PipelineRuns.
Variable local : Q.

Lemma step_order (p : Pipeline) (ev : event) :
  is_process_batch ev = false ->
  batch (step local p ev) ++ _read_queue (processor (step local p ev))
  = batch p ++ _read_queue (processor p)
  \/ exists read, ev = Ingress read
       /\ batch (step local p ev) ++ _read_queue (processor (step local p ev))
          = batch p ++ _read_queue (processor p) ++ [read].
Proof.
  destruct ev as [read| |now]; cbn [step is_process_batch]; [| |discriminate];
    intros _.
  - destruct (process_read_outcome_cases (processor p) read)
      as [(_ & [e He] & H) | [(_ & _ & H) | (_ & _ & H)]];
      destruct (process_read_outcome (processor p) read) as [o self'];
      cbn [fst snd] in *.
    + subst o self'. left. reflexivity.
    + injection H as -> ->. left. reflexivity.
    + injection H as -> ->. right. exists read. split; reflexivity.
  - left. destruct (length (batch p) <? BATCH_SIZE); [|reflexivity].
    destruct (_read_queue (processor p)) as [|read rest] eqn:Eq;
      [rewrite Eq; reflexivity|].
    cbn [batch processor]. unfold with_queue. cbn [_read_queue].
    rewrite <- app_assoc. reflexivity.
Qed.

(** X22: arrival order is kept.  While producers call [process_read] and
    the worker takes reads off the queue, the worker's batch followed by
    the queue is what it was, followed by reads that came in, in the order
    they came in (those not turned away). *)
Theorem ingress_order_is_kept (p : Pipeline) (evs : list event) :
  forallb (fun ev => negb (is_process_batch ev)) evs = true ->
  exists admitted : list Read,
    sublist admitted (ingress_reads evs)
    /\ batch (run local p evs) ++ _read_queue (processor (run local p evs))
       = batch p ++ _read_queue (processor p) ++ admitted.
Proof.
  unfold run. revert p. induction evs as [|ev evs IH]; intros p Hall.
  - exists []. split; [constructor|]. simpl. rewrite app_nil_r. reflexivity.
  - simpl in Hall. apply andb_true_iff in Hall as [Hev Hall].
    apply negb_true_iff in Hev.
    destruct (IH (step local p ev) Hall) as (adm & Hsub & Heq).
    cbn [fold_left]. rewrite Heq.
    destruct (step_order p ev Hev) as [Hsame | (read & -> & Hadd)].
    + exists adm. split.
      * destruct ev as [read| |now]; cbn [ingress_reads];
          [apply sublist_cons | |]; exact Hsub.
      * rewrite app_assoc, Hsame, <- app_assoc. reflexivity.
    + exists (read :: adm). split.
      * cbn [ingress_reads]. apply sublist_skip. exact Hsub.
      * rewrite app_assoc, Hadd, <- !app_assoc. reflexivity.
Qed.

Lemma process_batch_keeps (now : Q) (self : ReadProcessor) (reads : list Read) :
  _error_counts (snd (_process_batch local now self reads))
  = _error_counts self
  /\ _running (snd (_process_batch local now self reads)) = _running self.
Proof.
  unfold _process_batch. destruct reads as [|r0 reads0]; [auto|].
  destruct (apply_filters (_filter self) (r0 :: reads0)) as [[filtered|e] flt].
  - destruct (process_reads local now (_deduplicator self) filtered)
      as [dedup out]. auto.
  - auto.
Qed.

Lemma step_error_counts (p : Pipeline) (ev : event) :
  _error_counts (processor (step local p ev)) = _error_counts (processor p).
Proof.
  destruct ev as [read| |now]; cbn [step].
  - destruct (process_read_outcome_cases (processor p) read)
      as [(_ & [e He] & H) | [(_ & _ & H) | (_ & _ & H)]];
      destruct (process_read_outcome (processor p) read) as [o self'];
      cbn [fst snd] in *;
      [subst o self' | injection H as -> -> | injection H as -> ->];
      reflexivity.
  - destruct (length (batch p) <? BATCH_SIZE); [|reflexivity].
    destruct (_read_queue (processor p)); reflexivity.
  - unfold loop_turn.
    pose proof (process_batch_keeps now (processor p) (batch p)) as [H _].
    destruct (_process_batch local now (processor p) (batch p))
      as [[u|e] self1]; cbn [fst snd] in *.
    + exact H.
    + destruct (_check_error_threshold _); exact H.
Qed.

Lemma no_errors_no_trip (self : ReadProcessor) :
  _error_counts self = ∅ -> _check_error_threshold self = false.
Proof.
  intros He. unfold _check_error_threshold, total_errors.
  rewrite He, map_fold_empty. apply Qltb_false.
  unfold Qdiv. rewrite Qmult_0_l. q_compare.
Qed.

(** X23: the breaker is never tripped by the pipeline itself.  In every
    state reached from a freshly built processor [_error_counts] is still
    empty, so [_check_error_threshold] answers false and a turn of the
    main loop sleeps the processing interval, or not at all after an
    exception, and never the breaker's one second. *)
Theorem breaker_never_trips
  (w th q bt : Q) (cap : Z) (p0 : ReadProcessor)
  (evs : list event) (now : Q) (reads : list Read) :
  Processor.__init__ w th q cap bt = Ok p0 ->
  let self := processor (run local (start_pipeline p0) evs) in
  _error_counts self = ∅
  /\ _check_error_threshold self = false
  /\ (snd (loop_turn local now self reads) = PROCESSING_INTERVAL
      \/ snd (loop_turn local now self reads) = 0%Q).
Proof.
  intros Hinit self.
  assert (H0 : _error_counts p0 = ∅).
  { unfold Processor.__init__ in Hinit.
    destruct (Dedup.__init__ w th DEFAULT_MAX_BUFFER_SIZE); [|discriminate].
    destruct (Filter.__init__ q DEFAULT_CONFIDENCE_THRESHOLD
                DEFAULT_BATCH_SIZE true); [|discriminate].
    injection Hinit as <-. reflexivity. }
  assert (He : _error_counts self = ∅).
  { assert (Hgen : forall l p, _error_counts (processor p) = ∅ ->
              _error_counts (processor (fold_left (step local) l p)) = ∅).
    { induction l as [|ev l IH]; intros p Hp; simpl; [exact Hp|].
      apply IH. rewrite step_error_counts. exact Hp. }
    unfold self, run. apply Hgen. exact H0. }
  split; [exact He|]. split; [apply no_errors_no_trip; exact He|].
  unfold loop_turn.
  pose proof (process_batch_keeps now self reads) as [Hk _].
  destruct (_process_batch local now self reads) as [[u|e] self1];
    cbn [fst snd] in *; [left; reflexivity|].
  rewrite no_errors_no_trip; [right; reflexivity|].
  unfold inc_processing_errors, with_metrics. cbn [_error_counts].
  rewrite Hk. exact He.
Qed.

End PipelineRuns.

Lemma ingress_order_is_kept_witness :
  let p := start_pipeline (read_processor 2) in
  let evs := [Ingress (tag_read 1 0 (-50)); Get; Ingress (tag_read 2 1 (-40));
              Ingress (tag_read 3 2 (-30)); Ingress (tag_read 4 3 (-30))] in
  forallb (fun ev => negb (is_process_batch ev)) evs = true /\
  exists admitted : list Read,
    sublist admitted (ingress_reads evs)
    /\ batch (run 0 p evs) ++ _read_queue (processor (run 0 p evs))
       = batch p ++ _read_queue (processor p) ++ admitted.
Proof.
  intros p evs.
  assert (H : forallb (fun ev => negb (is_process_batch ev)) evs = true)
    by reflexivity.
  split; [exact H|].
  exact (ingress_order_is_kept 0 p evs H).
Defined.

Lemma breaker_never_trips_witness :
  let evs := [Ingress (tag_read 1 0 (-50)); Ingress (tag_read 2 0 (-80));
              Get; ProcessBatch 1] in
  Processor.__init__ 5 3 0.7 2 1 = Ok (read_processor 2) /\
  _check_error_threshold
    (processor (run 0 (start_pipeline (read_processor 2)) evs)) = false.
Proof.
  intros evs.
  assert (H : Processor.__init__ 5 3 0.7 2 1 = Ok (read_processor 2))
    by reflexivity.
  split; [exact H|].
  destruct (breaker_never_trips 0 5 3 0.7 1 2 (read_processor 2) evs 0 [] H)
    as (_ & Hc & _).
  exact Hc.
Defined.

(** ** Shutdown *)

Import Shutdown.

Lemma stop_loop_drains (local : Q) (fuel : nat) (clock : nat -> Q) (i : nat)
  (self : ReadProcessor) :
  length (_read_queue self) <= fuel ->
  let self' := stop_loop local fuel clock i self in
  _read_queue self' = []
  /\ _running self' = _running self
  /\ maxsize self' = maxsize self
  /\ reads_received (_metrics self') = reads_received (_metrics self)
  /\ reads_processed (_metrics self')
     <= reads_processed (_metrics self) + length (_read_queue self).
Proof.
  revert i self. induction fuel as [|fuel IH]; intros i self Hf.
  - simpl. destruct (_read_queue self); [|simpl in Hf; lia].
    repeat split; simpl; lia.
  - cbn [stop_loop].
    destruct (_read_queue self) as [|r0 q0] eqn:Eq.
    { rewrite Eq. repeat split; simpl; lia. }
    set (q := r0 :: q0) in *.
    set (self1 := with_queue self (drop BATCH_SIZE q)).
    pose proof (process_batch_counts local (clock i) self1 (take BATCH_SIZE q))
      as (Hm & Hq & Hr & Hp).
    pose proof (process_batch_keeps local (clock i) self1 (take BATCH_SIZE q))
      as [_ Hrun].
    destruct (_process_batch local (clock i) self1 (take BATCH_SIZE q))
      as [res self2].
    cbn [fst snd] in *.
    assert (Hlen : length (_read_queue self2) <= fuel).
    { rewrite Hq. unfold self1. cbn [with_queue _read_queue].
      rewrite length_drop. unfold q, BATCH_SIZE in *. simpl in *. lia. }
    destruct (IH (S i) self2 Hlen) as (H1 & H2 & H3 & H4 & H5).
    split; [exact H1|]. split; [rewrite H2; exact Hrun|].
    split; [rewrite H3; exact Hm|]. split; [rewrite H4; exact Hr|].
    rewrite Hq in H5. unfold self1 in H5, Hp.
    cbn [with_queue _read_queue _metrics] in H5, Hp.
    rewrite length_drop in H5. rewrite length_take in Hp. lia.
Qed.

(** X25: [stop], run on its own, drains the queue: when it returns the
    queue is empty and the service is marked as not running; the bound of
    the queue and the count of received reads are untouched, and the count
    of processed reads has grown by at most the number of reads that were
    waiting. *)
Theorem stop_drains_the_queue
  (local : Q) (clock : nat -> Q) (self : ReadProcessor) :
  let self' := stop local clock self in
  _read_queue self' = []
  /\ _running self' = false
  /\ maxsize self' = maxsize self
  /\ reads_received (_metrics self') = reads_received (_metrics self)
  /\ reads_processed (_metrics self')
     <= reads_processed (_metrics self) + length (_read_queue self).
Proof.
  unfold stop.
  exact (stop_loop_drains local (length (_read_queue self)) clock 0
           (with_running self false) (le_n _)).
Qed.

(** ** The filter before the deduplicator *)







(** ** The health endpoint *)

Import Controller.

(** Whether [is_healthy] raises does not depend on the clock. *)
Lemma is_healthy_ok_any_time (now now' : Q) (r : Reader) :
  is_ok (is_healthy now r) = is_ok (is_healthy now' r).
Proof.
  unfold is_healthy.
  destruct (match status_history r with
            | [] => Ok None
            | _ => next_error_entry (rev (status_history r))
            end) as [last|e]; [|reflexivity].
  destruct (get_dbm_range (power_level r)) as [lo hi].
  destruct (validate_signal_strength _) as [valid m]. reflexivity.
Qed.

Lemma check_readers_spec (clock : nat -> Q) (readers : list (string * Reader))
  (i : nat) (st : string) (acc : gmap string HealthStatus) :
  match check_readers clock i readers st acc with
  | inl _ =>
      Exists (fun p => is_ok (is_healthy 0 (snd p)) = false) readers
  | inr (st', _) =>
      Forall (fun p => is_ok (is_healthy 0 (snd p)) = true) readers
      /\ (st' = "degraded" <->
          st = "degraded"
          \/ exists k id_ r h,
               readers !! k = Some (id_, r)
               /\ is_healthy (clock (i + k)) r = Ok h
               /\ heartbeat_ok h = false)
      /\ (st' = st \/ st' = "degraded")
  end.
Proof.
  revert i st acc. induction readers as [|[rid r] rest IH]; intros i st acc.
  - simpl. split; [constructor|]. split; [|left; reflexivity].
    split; [auto|]. intros [H | (k & id_ & r & h & Hk & _)]; [exact H|].
    discriminate.
  - cbn [check_readers].
    destruct (is_healthy (clock i) r) as [h|e] eqn:Eh.
    + assert (Hok : is_ok (is_healthy 0 r) = true).
      { rewrite (is_healthy_ok_any_time 0 (clock i) r), Eh. reflexivity. }
      specialize (IH (S i) (if heartbeat_ok h then st else "degraded")
                    (<[rid := h]> acc)).
      destruct (check_readers clock (S i) rest _ _) as [[e j] | [st' m]].
      * apply Exists_cons_tl. exact IH.
      * destruct IH as (Hall & Hdeg & Hst).
        split; [constructor; [exact Hok | exact Hall]|]. split.
        -- rewrite Hdeg. split.
           ++ intros [H | (k & id_ & r' & h' & Hk & Hh & Hb)].
              ** destruct (heartbeat_ok h) eqn:Eb; [left; exact H|].
                 right. exists 0, rid, r, h.
                 rewrite Nat.add_0_r. auto.
              ** right. exists (S k), id_, r', h'.
                 rewrite Nat.add_succ_r. auto.
           ++ intros [H | (k & id_ & r' & h' & Hk & Hh & Hb)].
              ** left. destruct (heartbeat_ok h); [exact H | reflexivity].
              ** destruct k as [|k].
                 --- simpl in Hk. injection Hk as <- <-.
                     rewrite Nat.add_0_r, Eh in Hh. injection Hh as <-.
                     left. rewrite Hb. reflexivity.
                 --- right. exists k, id_, r', h'.
                     rewrite Nat.add_succ_r in Hh. auto.
        -- destruct Hst as [-> | ->]; [|right; reflexivity].
           destruct (heartbeat_ok h); [left | right]; reflexivity.
    + apply Exists_cons_hd. simpl.
      rewrite (is_healthy_ok_any_time 0 (clock i) r), Eh. reflexivity.
Qed.

(** X27: the health endpoint.  [health_check] answers "unhealthy" only if
    [is_healthy] raises for some registered reader.  Otherwise it reports
    the number of registered readers, and its status is "degraded" exactly
    when the heartbeat of some reader is older than 60 s at the instant
    that reader is looked at, and "healthy" if none is. *)
Theorem health_check_report (clock : nat -> Q)
  (readers : list (string * Reader)) :
  match health_check clock readers with
  | Unhealthy _ _ =>
      Exists (fun p => is_ok (is_healthy 0 (snd p)) = false) readers
  | Report st n _ ts =>
      Forall (fun p => is_ok (is_healthy 0 (snd p)) = true) readers
      /\ n = length readers /\ ts = clock 0
      /\ (st = "healthy" \/ st = "degraded")
      /\ (st = "degraded" <->
          exists k id_ r h,
            readers !! k = Some (id_, r)
            /\ is_healthy (clock (S k)) r = Ok h
            /\ (60 < clock (S k) - last_heartbeat r)%Q)
  end.
Proof.
  unfold health_check.
  pose proof (check_readers_spec clock readers 1 "healthy" ∅) as H.
  destruct (check_readers clock 1 readers "healthy" ∅) as [[e j] | [st m]].
  - exact H.
  - destruct H as (Hall & Hdeg & Hst).
    split; [exact Hall|]. split; [reflexivity|]. split; [reflexivity|].
    split; [destruct Hst as [-> | ->]; auto|].
    rewrite Hdeg. clear Hdeg. split.
    + intros [H | (k & id_ & r & h & Hk & Hh & Hb)]; [discriminate|].
      exists k, id_, r, h. split; [exact Hk|]. split; [exact Hh|].
      change (1 + k) with (S k) in Hh.
      unfold is_healthy in Hh.
      destruct (match status_history r with
                | [] => Ok None
                | _ => next_error_entry (rev (status_history r))
                end) as [last|e]; [|discriminate].
      destruct (get_dbm_range (power_level r)) as [lo hi].
      destruct (validate_signal_strength _) as [valid msg].
      injection Hh as <-. cbn [heartbeat_ok] in Hb.
      apply Qleb_false in Hb. exact Hb.
    + intros (k & id_ & r & h & Hk & Hh & Hb). right.
      exists k, id_, r, h. split; [exact Hk|]. split; [exact Hh|].
      unfold is_healthy in Hh.
      destruct (match status_history r with
                | [] => Ok None
                | _ => next_error_entry (rev (status_history r))
                end) as [last|e]; [|discriminate].
      destruct (get_dbm_range (power_level r)) as [lo hi].
      destruct (validate_signal_strength _) as [valid msg].
      injection Hh as <-. cbn [heartbeat_ok].
      apply Qleb_false. exact Hb.
Qed.

(** ** Further properties of the deduplicator, the power levels and start-up *)

(** X9: [process_reads] returns reads of its batch, in the order of the
    batch, and leaves the time window, the signal threshold and the buffer
    cap of the deduplicator as they were.  On an empty batch it returns at
    once: nothing is emitted and the deduplicator, expired reads included,
    is untouched. *)
Theorem process_reads_is_subsequence
  (local now : Q) (d : ReadDeduplicator) (reads : list Read) :
  sublist (snd (process_reads local now d reads)) reads
  /\ time_window_seconds (fst (process_reads local now d reads))
     = time_window_seconds d
  /\ signal_threshold_dbm (fst (process_reads local now d reads))
     = signal_threshold_dbm d
  /\ _max_buffer_size (fst (process_reads local now d reads))
     = _max_buffer_size d
  /\ process_reads local now d [] = (d, []).
Proof.
  split; [apply process_reads_sublist|].
  split; [|split; [|split; [apply process_reads_max | reflexivity]]].
  - unfold process_reads. destruct reads as [|r rest]; [reflexivity|].
    pose proof (process_loop_config local (_clean_buffer local now d)
                  (r :: rest)) as [H _].
    destruct (process_loop local _ (r :: rest)) as [d' out]. exact H.
  - unfold process_reads. destruct reads as [|r rest]; [reflexivity|].
    pose proof (process_loop_config local (_clean_buffer local now d)
                  (r :: rest)) as [_ H].
    destruct (process_loop local _ (r :: rest)) as [d' out]. exact H.
Qed.




